(** * Block-state registry and chunk encoding of draco

    A shallow embedding of [draco/state/state.go] (property hashing and the
    block-state registry) and of the chunk encoder of package [chunk]
    ([Encode], [EncodeSubChunk], [EncodeBiomes], [encodePalettedStorage]),
    with the properties proved about them. *)

From Stdlib Require Import ZArith Lia Ascii.
From stdpp Require Import base gmap strings list sorting.

Local Open Scope Z_scope.

(** ** Machine integers

    Go's fixed-width integers are integers of [Z] together with the
    conversion that wraps a value into the range of the type. *)

(** [byte(x)] and [uint8(x)]: the low eight bits. *)
Definition to_byte (x : Z) : Z := x mod 256.

(** [uint32(x)]: the low 32 bits. *)
Definition to_uint32 (x : Z) : Z := x mod 2 ^ 32.

(** [int] on a 64-bit target: the low 64 bits, read as a signed number. *)
Definition to_int (x : Z) : Z := (x + 2 ^ 63) mod 2 ^ 64 - 2 ^ 63.

Definition is_byte (x : Z) : Prop := 0 <= x < 256.
Definition is_uint32 (x : Z) : Prop := 0 <= x < 2 ^ 32.
Definition is_int32 (x : Z) : Prop := - 2 ^ 31 <= x < 2 ^ 31.

(** The four bytes [byte(v), byte(v>>8), byte(v>>16), byte(v>>24)] of a
    32-bit word, lowest byte first. *)
Definition word_bytes (v : Z) : list Z :=
  [to_byte v; to_byte (Z.shiftr v 8); to_byte (Z.shiftr v 16); to_byte (Z.shiftr v 24)].

(** The number a sequence of bytes denotes when read lowest byte first. *)
Fixpoint le_value (bs : list Z) : Z :=
  match bs with
  | [] => 0
  | b :: bs => b + 256 * le_value bs
  end.

(** The two's-complement bit pattern of a 32-bit signed integer, as an
    unsigned number. *)
Definition twos_complement32 (v : Z) : Z := if v <? 0 then v + 2 ^ 32 else v.

(** The byte order of the machine the program runs on. *)
Inductive ByteOrder : Set := LittleEndian | BigEndian.

(** The [unsafe.Pointer] cast that reads [v] of type [int32] as an array of
    four bytes: the bytes of [v] in the order the host keeps them in
    memory. *)
Definition int32_memory (host : ByteOrder) (v : Z) : list Z :=
  match host with
  | LittleEndian => word_bytes (to_uint32 v)
  | BigEndian => rev (word_bytes (to_uint32 v))
  end.

(** ** Strings

    A Go string is a sequence of bytes; so is a [string] of Rocq. *)

Definition char_of_byte (b : Z) : ascii := ascii_of_N (Z.to_N (to_byte b)).

Definition byte_of_char (c : ascii) : Z := Z.of_N (N_of_ascii c).

Fixpoint string_of_bytes (bs : list Z) : string :=
  match bs with
  | [] => EmptyString
  | b :: bs => String (char_of_byte b) (string_of_bytes bs)
  end.

(** [a < b] on Go strings compares byte by byte; [String.ltb] does the same. *)
Definition less (a b : string) : bool := String.ltb a b.

(** The order [sort.Slice] leaves its slice in: no element is [less] than
    one before it. *)
Definition key_le (a b : string) : Prop := less b a = false.

Global Instance key_le_dec a b : Decision (key_le a b).
Proof. unfold key_le. apply _. Defined.

(** [sort.Slice(keys, less)].  The keys of a map are pairwise distinct and
    [less] is a strict total order, so every sorting algorithm returns the
    same slice (see [sortKeys_unique]). *)
Definition sortKeys (keys : list string) : list string := merge_sort key_le keys.

(** ** Block states ([state.go]) *)

(** A value of type [interface{}] held by a property bag.  [VOther ty]
    stands for a value of any dynamic type other than [bool], [uint8],
    [int32] and [string]; [ty] is the name [%T] prints for it. *)
Inductive value : Set :=
| VBool (b : bool)
| VUint8 (v : Z)
| VInt32 (v : Z)
| VString (s : string)
| VOther (ty : string).

Global Instance value_eq_dec : EqDecision value.
Proof. solve_decision. Defined.

(** [map[string]interface{}]; [None] is the nil map. *)
Definition properties : Type := option (gmap string value).

(** Reading a key of a map; a nil map reads as an empty one. *)
Definition prop_lookup (p : properties) (k : string) : option value :=
  match p with
  | None => None
  | Some m => m !! k
  end.

(** The values the type switch of [hashProperties] has a case for. *)
Definition hashable (v : value) : Prop :=
  match v with
  | VOther _ => False
  | _ => True
  end.

Global Instance hashable_dec v : Decision (hashable v).
Proof. destruct v; simpl; apply _. Defined.

(** The map behind a property bag. *)
Definition bag (p : properties) : gmap string value := default ∅ p.

(** Two values of one type that take the same number of bytes in a digest. *)
Definition like (v w : value) : Prop :=
  match v, w with
  | VBool _, VBool _ => True
  | VUint8 a, VUint8 b => is_byte a /\ is_byte b
  | VInt32 a, VInt32 b => is_int32 a /\ is_int32 b
  | VString s, VString t => String.length s = String.length t
  | _, _ => False
  end.

Global Instance like_dec v w : Decision (like v w).
Proof. destruct v, w; simpl; unfold is_byte, is_int32; apply _. Defined.

(** Two bags with the same key set and [like] values under every key. *)
Definition alike (p q : properties) : Prop :=
  dom (bag p) = dom (bag q)
  /\ map_Forall (fun k v => from_option (like v) False (bag q !! k)) (bag p).

Global Instance alike_dec p q : Decision (alike p q).
Proof.
  unfold alike. apply and_dec; [apply _|].
  apply map_Forall_dec. intros k v. destruct (bag q !! k); simpl; apply _.
Defined.

Record blockState : Type := mkBlockState {
  Name : string;
  Properties : properties;
  Version : Z
}.

(** [stateHash]: the key of the registry. *)
Record stateHash : Type := mkStateHash {
  sh_name : string;
  sh_properties : string
}.

Global Instance stateHash_eq_dec : EqDecision stateHash.
Proof. solve_decision. Defined.

Lemma stateHash_pair (h : stateHash) :
  (fun p : string * string => mkStateHash p.1 p.2) (sh_name h, sh_properties h) = h.
Proof. by destruct h. Qed.

Global Instance stateHash_countable : Countable stateHash :=
  inj_countable' (fun h => (sh_name h, sh_properties h))
                 (fun p => mkStateHash p.1 p.2) stateHash_pair.

(** What a [panic] carries.  The source formats a message; the embedding
    keeps the data the message is built from:
    [invalid block property type %T for property %v] and
    [cannot register the same state twice (%+v)]. *)
Inductive panic : Type :=
| InvalidPropertyType (ty key : string)
| DuplicateState (s : blockState).

(** How a call ends: it returns, or a panic unwinds out of it. *)
Inductive outcome (A : Type) : Type :=
| Returned (a : A)
| Panicked (p : panic).
Arguments Returned {A} a.
Arguments Panicked {A} p.

Definition returns {A} (o : outcome A) : Prop := exists a, o = Returned a.

Section Hashing.
(** The byte order of the host, which the [unsafe] cast of
    [hashProperties] exposes. *)
Variable host : ByteOrder.

(** One round of the loop over the sorted keys: the type switch on
    [properties[k]], writing to the builder [b].  A key that is not in
    the map reads as the nil interface, which takes the [default] case. *)
Definition writeProperty (b : string) (k : string) (v : option value) : outcome string :=
  match v with
  | Some (VBool true) => Returned (b +:+ string_of_bytes [1])
  | Some (VBool false) => Returned (b +:+ string_of_bytes [0])
  | Some (VUint8 n) => Returned (b +:+ string_of_bytes [n])
  | Some (VInt32 n) => Returned (b +:+ string_of_bytes (int32_memory host n))
  | Some (VString s) => Returned (b +:+ s)
  | Some (VOther ty) => Panicked (InvalidPropertyType ty k)
  | None => Panicked (InvalidPropertyType "<nil>" k)
  end.

(** [for _, k := range keys { switch ... }], then [b.String()]. *)
Fixpoint hashKeys (m : gmap string value) (keys : list string) (b : string) : outcome string :=
  match keys with
  | [] => Returned b
  | k :: keys =>
      match writeProperty b k (m !! k) with
      | Returned b' => hashKeys m keys b'
      | Panicked p => Panicked p
      end
  end.

(** [hashProperties] once the [range] loop has collected the keys of the
    map in [ranged], the order the runtime happened to walk it in. *)
Definition hashProperties_ranged (ranged : list string) (m : gmap string value) : outcome string :=
  hashKeys m (sortKeys ranged) "".

(** The order in which [range] walks a map is unspecified; [map_to_list]
    is one such order, and the digest is the same for every other. *)
Definition range_keys (m : gmap string value) : list string := (map_to_list m).*1.

Definition hashProperties (p : properties) : outcome string :=
  match p with
  | None => Returned ""
  | Some m => hashProperties_ranged (range_keys m) m
  end.

(** *** The registry

    The package-level variables of [state.go], with the two tables of
    package [chunk] that registration grows along with them. *)
Record registry : Type := mkRegistry {
  blocks : list blockState;
  stateRuntimeIDs : gmap stateHash Z;
  nbtBlocks : list bool;
  randomTickBlocks : list bool;
  airRID : Z;
  FilteringBlocks : list Z;
  LightBlocks : list Z
}.

(** The variables as the package declares them; the two tables of package
    [chunk] start as whatever that package holds. *)
Definition initial (filtering light : list Z) : registry :=
  mkRegistry [] ∅ [] [] 0 filtering light.

(** [registerBlockState]: the registry before the call goes in, the
    registry after it and the way the call ended come out.  An entry of
    [blocks] is [unknownBlock{s}], kept as [s]. *)
Definition registerBlockState (s : blockState) (g : registry) : registry * outcome unit :=
  match hashProperties (Properties s) with
  | Panicked p => (g, Panicked p)
  | Returned d =>
      let h := mkStateHash (Name s) d in
      match stateRuntimeIDs g !! h with
      | Some _ => (g, Panicked (DuplicateState s))
      | None =>
          let rid := to_uint32 (Z.of_nat (length (blocks g))) in
          let air := if decide (Name s = "minecraft:air") then rid else airRID g in
          (mkRegistry (blocks g ++ [s])
                      (<[h := rid]> (stateRuntimeIDs g))
                      (nbtBlocks g ++ [false])
                      (randomTickBlocks g ++ [false])
                      air
                      (FilteringBlocks g ++ [15])
                      (LightBlocks g ++ [0]),
           Returned tt)
      end
  end.

(** The key [registerBlockState] computes for a record, when hashing the
    properties returns. *)
Definition hash_of (s : blockState) : option stateHash :=
  match hashProperties (Properties s) with
  | Returned d => Some (mkStateHash (Name s) d)
  | Panicked _ => None
  end.

(** The loop of [init]: [stream] holds the records the decoder yields
    before its first error, which ends the loop.  Nothing recovers a panic
    of [registerBlockState], so it unwinds out of [init]. *)
Fixpoint init (stream : list blockState) (g : registry) : registry * outcome unit :=
  match stream with
  | [] => (g, Returned tt)
  | s :: stream =>
      match registerBlockState s g with
      | (g', Returned _) => init stream g'
      | (g', Panicked p) => (g', Panicked p)
      end
  end.

(** The closure [init] stores in [StateToRuntimeID]; a key that is not in
    the map reads as [(0, false)]. *)
Definition StateToRuntimeID (g : registry) (name : string) (p : properties) : outcome (Z * bool) :=
  match hashProperties p with
  | Panicked e => Panicked e
  | Returned d =>
      match stateRuntimeIDs g !! mkStateHash name d with
      | Some rid => Returned (rid, true)
      | None => Returned (0, false)
      end
  end.
End Hashing.

(** ** Chunk encoding (package [chunk]) *)

Definition SubChunkVersion : Z := 9.

(** The header byte as the format describes it: the one byte that holds
    [(bitsPerIndex << 1) | networkFlag]. *)
Definition headerByte (bitsPerIndex networkFlag : Z) : Z :=
  to_byte (Z.lor (Z.shiftl bitsPerIndex 1) networkFlag).

(** The two palette kinds the encoder is called with. *)
Inductive paletteEncoding : Set := BlockPaletteEncoding | BiomePaletteEncoding.

Record SerialisedData : Type := mkSerialisedData {
  SubChunks : list (list Z);
  Biomes : list Z;
  BlockNBT : list Z
}.

Section Chunk.
(** The palette type is declared outside the files at hand; the encoder
    only hands it on. *)
Variable Palette : Type.

(** Modelled from the spec: the [Encoding] interface is declared outside
    the files at hand.  The encoder calls its method [network], a byte,
    and its method [encodePalette], which writes the palette record to the
    buffer; the field holds the bytes written. *)
Record Encoding : Type := mkEncoding {
  network : Z;
  encodePalette : Palette -> paletteEncoding -> list Z
}.

(** The palette writers of the two encodings, declared outside the files
    at hand. *)
Variable networkPalette diskPalette : Palette -> paletteEncoding -> list Z.

(** Modelled from the spec: the network flag is 1 for the network encoding
    and 0 for disk. *)
Definition NetworkEncoding : Encoding := mkEncoding 1 networkPalette.
Definition DiskEncoding : Encoding := mkEncoding 0 diskPalette.

(** The fields of [PalettedStorage] the encoder reads: the bit width, the
    packed words ([uint32]) and the palette. *)
Record PalettedStorage : Type := mkPalettedStorage {
  bitsPerIndex : Z;
  indices : list Z;
  palette : Palette
}.

Record SubChunk : Type := mkSubChunk {
  storages : list PalettedStorage
}.

(** Modelled from the spec: the [Chunk] struct is declared outside the
    files at hand.  [sub], [biomes] and the range [r] are the fields
    [Encode] reads; the spec gives a chunk a block-entity blob as well. *)
Record Chunk : Type := mkChunk {
  sub : list SubChunk;
  biomes : list PalettedStorage;
  r : Z * Z;
  blockEntityBlob : list Z
}.

(** The assignment [b[i*4+1], b[i*4+2], b[i*4+3], b[i*4+4] = ...] for the
    word [v] at position [i]. *)
Definition write_word (b : list Z) (i : nat) (v : Z) : list Z :=
  <[(i * 4 + 4)%nat := to_byte (Z.shiftr v 24)]>
    (<[(i * 4 + 3)%nat := to_byte (Z.shiftr v 16)]>
       (<[(i * 4 + 2)%nat := to_byte (Z.shiftr v 8)]>
          (<[(i * 4 + 1)%nat := to_byte v]> b))).

(** [for i, v := range storage.indices], from position [i] on. *)
Fixpoint write_words (b : list Z) (i : nat) (vs : list Z) : list Z :=
  match vs with
  | [] => b
  | v :: vs => write_words (write_word b i v) (S i) vs
  end.

(** The slice [b] that [encodePalettedStorage] fills and writes. *)
Definition storage_bytes (storage : PalettedStorage) (e : Encoding) : list Z :=
  let b := replicate (length (indices storage) * 4 + 1) 0 in
  let b := <[0%nat := Z.lor (to_byte (Z.shiftl (bitsPerIndex storage) 1)) (network e)]> b in
  write_words b 0 (indices storage).

(** [encodePalettedStorage]: the buffer after the call. *)
Definition encodePalettedStorage (buf : list Z) (storage : PalettedStorage)
           (e : Encoding) (pe : paletteEncoding) : list Z :=
  let buf := buf ++ storage_bytes storage e in
  buf ++ encodePalette e (palette storage) pe.

(** [pool.Get()]: a buffer with nothing in it.  [New] makes a buffer of
    length 0, and the deferred function resets a buffer before it puts it
    back. *)
Definition pool_Get : list Z := [].

(** [EncodeSubChunk].  [ind] and [r[0]] are of type [int]; the slice
    returned is a copy of all the buffer holds. *)
Definition EncodeSubChunk (s : SubChunk) (e : Encoding) (r : Z * Z) (ind : Z) : list Z :=
  let buf := pool_Get in
  let buf := buf ++ [SubChunkVersion;
                     to_byte (Z.of_nat (length (storages s)));
                     to_byte (to_int (ind + Z.shiftr (r.1) 4))] in
  fold_left (fun buf storage => encodePalettedStorage buf storage e BlockPaletteEncoding)
            (storages s) buf.

(** [EncodeBiomes]. *)
Definition EncodeBiomes (c : Chunk) (e : Encoding) : list Z :=
  let buf := pool_Get in
  fold_left (fun buf b => encodePalettedStorage buf b e BiomePaletteEncoding)
            (biomes c) buf.

(** [for i, s := range c.sub { d.SubChunks[i] = ... }], from position [i]
    on. *)
Fixpoint encode_subs (c : Chunk) (e : Encoding) (d : list (list Z)) (i : nat)
         (ss : list SubChunk) : list (list Z) :=
  match ss with
  | [] => d
  | s :: ss => encode_subs c e (<[i := EncodeSubChunk s e (r c) (Z.of_nat i)]> d) (S i) ss
  end.

(** [Encode].  The composite literal sets [SubChunks] only; [BlockNBT]
    keeps its zero value, the empty slice. *)
Definition Encode (c : Chunk) (e : Encoding) : SerialisedData :=
  let d := mkSerialisedData (replicate (length (sub c)) []) [] [] in
  let d := mkSerialisedData (encode_subs c e (SubChunks d) 0 (sub c)) (Biomes d) (BlockNBT d) in
  mkSerialisedData (SubChunks d) (EncodeBiomes c e) (BlockNBT d).
End Chunk.

Arguments network {Palette}.
Arguments encodePalette {Palette}.
Arguments bitsPerIndex {Palette}.
Arguments indices {Palette}.
Arguments palette {Palette}.
Arguments storages {Palette}.
Arguments sub {Palette}.
Arguments biomes {Palette}.
Arguments r {Palette}.
Arguments blockEntityBlob {Palette}.
Arguments storage_bytes {Palette}.
Arguments encodePalettedStorage {Palette}.
Arguments EncodeSubChunk {Palette}.
Arguments EncodeBiomes {Palette}.
Arguments Encode {Palette}.

(** ** More of [state.go] *)


(** The registry and its block table answer to each other: the key of the
    block at index [i] maps to [uint32(i)], and every key of the map is the
    key of the block at such an index. *)
Definition consistent (host : ByteOrder) (g : registry) : Prop :=
  (forall (i : nat) s, blocks g !! i = Some s ->
     exists h, hash_of host s = Some h
       /\ stateRuntimeIDs g !! h = Some (to_uint32 (Z.of_nat i)))
  /\ (forall h rid, stateRuntimeIDs g !! h = Some rid ->
       exists (i : nat) s, blocks g !! i = Some s
         /\ hash_of host s = Some h
         /\ rid = to_uint32 (Z.of_nat i)).

(** ** The buffer pool of package [chunk]

    A [bytes.Buffer] is kept as the bytes written to it and not read yet.
    The pool, used by one encoder at a time, is kept as its idle buffers:
    [Get] hands out one of them ([pick] says which) or, when there is none
    there, a buffer of [New], which is empty; [Put] adds a buffer. *)

Definition pool_take (pick : nat) (idle : list (list Z)) : list Z * list (list Z) :=
  match idle !! pick with
  | Some buf => (buf, delete pick idle)
  | None => ([], idle)
  end.

Definition pool_Put (buf : list Z) (idle : list (list Z)) : list (list Z) :=
  buf :: idle.

Section Pool.
Variable Palette : Type.

(** [EncodeSubChunk] with the pool in it: the slice returned and the pool
    after the deferred function has run.  [buf.Read(sub)] with [sub] of
    length [buf.Len()] copies all the buffer holds; [buf.Reset()] empties
    the buffer. *)
Definition EncodeSubChunk_pooled (pick : nat) (idle : list (list Z))
           (s : SubChunk Palette) (e : Encoding Palette) (r : Z * Z) (ind : Z)
  : list Z * list (list Z) :=
  let '(buf, idle) := pool_take pick idle in
  let buf := buf ++ [SubChunkVersion;
                     to_byte (Z.of_nat (length (storages s)));
                     to_byte (to_int (ind + Z.shiftr (r.1) 4))] in
  let buf := fold_left (fun buf storage =>
                          encodePalettedStorage buf storage e BlockPaletteEncoding)
                       (storages s) buf in
  let sub := buf in
  let buf := @nil Z in
  (sub, pool_Put buf idle).

(** [EncodeBiomes] with the pool in it. *)
Definition EncodeBiomes_pooled (pick : nat) (idle : list (list Z))
           (c : Chunk Palette) (e : Encoding Palette)
  : list Z * list (list Z) :=
  let '(buf, idle) := pool_take pick idle in
  let buf := fold_left (fun buf b => encodePalettedStorage buf b e BiomePaletteEncoding)
                       (biomes c) buf in
  let biomes := buf in
  let buf := @nil Z in
  (biomes, pool_Put buf idle).
End Pool.

Arguments EncodeSubChunk_pooled {Palette}.
Arguments EncodeBiomes_pooled {Palette}.

(** * Properties *)

(** ** Bytes and words *)

Lemma to_byte_range x : is_byte (to_byte x).
Proof. unfold is_byte, to_byte. apply Z.mod_pos_bound. lia. Qed.

Lemma to_byte_small x : is_byte x -> to_byte x = x.
Proof. unfold is_byte, to_byte. intros Hx. apply Z.mod_small. lia. Qed.

Lemma to_byte_to_int x : to_byte (to_int x) = to_byte x.
Proof.
  unfold to_byte, to_int.
  pose proof (Z.div_mod (x + 2 ^ 63) (2 ^ 64) ltac:(lia)) as Hdm.
  replace ((x + 2 ^ 63) mod 2 ^ 64 - 2 ^ 63)
    with (x + (- (2 ^ 56) * ((x + 2 ^ 63) / 2 ^ 64)) * 256) by lia.
  apply Z.mod_add. lia.
Qed.

Lemma to_byte_land x : to_byte x = Z.land x (Z.ones 8).
Proof. unfold to_byte. rewrite Z.land_ones by lia. reflexivity. Qed.

(** Or-ing a byte into the low byte of a number, before or after the number
    is cut down to a byte. *)
Lemma to_byte_lor x n : is_byte n -> Z.lor (to_byte x) n = to_byte (Z.lor x n).
Proof.
  intros Hn. rewrite <- (to_byte_small n Hn) at 1.
  rewrite !to_byte_land. symmetry. apply Z.land_lor_distr_l.
Qed.

Lemma word_bytes_length v : length (word_bytes v) = 4%nat.
Proof. reflexivity. Qed.

Lemma word_bytes_range v : Forall is_byte (word_bytes v).
Proof. unfold word_bytes. repeat constructor; apply to_byte_range. Qed.

(** The four bytes of a word, read lowest byte first, give the word back. *)
Lemma word_bytes_le_value v : le_value (word_bytes v) = to_uint32 v.
Proof.
  unfold word_bytes, le_value, to_byte, to_uint32.
  rewrite !Z.shiftr_div_pow2 by lia.
  change (2 ^ 8) with 256. change (2 ^ 16) with (256 * 256).
  change (2 ^ 24) with (256 * (256 * 256)).
  change (2 ^ 32) with (256 * (256 * (256 * 256))).
  rewrite <- !Z.div_div by lia.
  rewrite !Z.rem_mul_r by lia.
  rewrite !Z.div_div by lia. rewrite <- !Z.div_div by lia.
  lia.
Qed.

Lemma flat_map_word_bytes_length vs :
  length (flat_map word_bytes vs) = (4 * length vs)%nat.
Proof.
  induction vs as [|v vs IH]; [reflexivity|].
  cbn [flat_map]. rewrite length_app, IH, word_bytes_length. simpl. lia.
Qed.

(** ** The paletted-storage record *)

Section ChunkFacts.
Variable Palette : Type.
Implicit Types (st : PalettedStorage Palette) (e : Encoding Palette).

(** Writing the word at position [i] replaces the four bytes after the
    first [4 * i + 1] and nothing else. *)
Lemma write_word_app (pre post : list Z) a b c d i v :
  length pre = (i * 4 + 1)%nat ->
  write_word (pre ++ a :: b :: c :: d :: post) i v = pre ++ word_bytes v ++ post.
Proof.
  intros Hpre. unfold write_word.
  rewrite (insert_app_r_alt pre _ (i * 4 + 1)) by lia.
  rewrite (insert_app_r_alt pre _ (i * 4 + 2)) by lia.
  rewrite (insert_app_r_alt pre _ (i * 4 + 3)) by lia.
  rewrite (insert_app_r_alt pre _ (i * 4 + 4)) by lia.
  replace (i * 4 + 1 - length pre)%nat with 0%nat by lia.
  replace (i * 4 + 2 - length pre)%nat with 1%nat by lia.
  replace (i * 4 + 3 - length pre)%nat with 2%nat by lia.
  replace (i * 4 + 4 - length pre)%nat with 3%nat by lia.
  reflexivity.
Qed.

(** The loop over the words fills the rest of the slice with the bytes of
    the words, in order. *)
Lemma write_words_app vs : forall (pre post : list Z) i,
  length pre = (i * 4 + 1)%nat ->
  length post = (4 * length vs)%nat ->
  write_words (pre ++ post) i vs = pre ++ flat_map word_bytes vs.
Proof.
  induction vs as [|v vs IH]; intros pre post i Hpre Hpost.
  - destruct post; [reflexivity | discriminate].
  - destruct post as [|a [|b [|c [|d post]]]]; simpl in Hpost; try lia.
    cbn [write_words flat_map].
    rewrite write_word_app by exact Hpre.
    rewrite (app_assoc pre), IH.
    + rewrite <- !app_assoc. reflexivity.
    + rewrite length_app, word_bytes_length. lia.
    + lia.
Qed.

Lemma storage_bytes_eq st e :
  storage_bytes st e
  = Z.lor (to_byte (Z.shiftl (bitsPerIndex st) 1)) (network e)
    :: flat_map word_bytes (indices st).
Proof.
  unfold storage_bytes.
  replace (length (indices st) * 4 + 1)%nat with (S (4 * length (indices st))) by lia.
  cbn [replicate]. cbn [insert list_insert].
  apply (write_words_app (indices st) [_] _ 0%nat); [reflexivity|].
  apply length_replicate.
Qed.

Lemma storage_bytes_length st e :
  length (storage_bytes st e) = (1 + 4 * length (indices st))%nat.
Proof. rewrite storage_bytes_eq. simpl. rewrite flat_map_word_bytes_length. lia. Qed.

(** What a call appends does not depend on what the buffer holds. *)
Lemma encodePalettedStorage_app buf st e pe :
  encodePalettedStorage buf st e pe = buf ++ encodePalettedStorage [] st e pe.
Proof. unfold encodePalettedStorage. simpl. rewrite <- app_assoc. reflexivity. Qed.

Lemma encode_storages_app pe e (sts : list (PalettedStorage Palette)) : forall buf,
  fold_left (fun buf st => encodePalettedStorage buf st e pe) sts buf
  = buf ++ flat_map (fun st => encodePalettedStorage [] st e pe) sts.
Proof.
  induction sts as [|st sts IH]; intros buf; cbn [fold_left flat_map].
  - rewrite app_nil_r. reflexivity.
  - rewrite IH, (encodePalettedStorage_app buf), <- app_assoc. reflexivity.
Qed.

(** The layout of a sub-chunk record, for any number of storages. *)
Lemma EncodeSubChunk_eq (s : SubChunk Palette) e (r : Z * Z) (ind : Z) :
  EncodeSubChunk s e r ind
  = [SubChunkVersion;
     to_byte (Z.of_nat (length (storages s)));
     to_byte (ind + Z.shiftr (r.1) 4)]
    ++ flat_map (fun st => encodePalettedStorage [] st e BlockPaletteEncoding) (storages s).
Proof.
  unfold EncodeSubChunk, pool_Get. rewrite encode_storages_app.
  rewrite to_byte_to_int. reflexivity.
Qed.

Lemma EncodeBiomes_eq (c : Chunk Palette) e :
  EncodeBiomes c e
  = flat_map (fun b => encodePalettedStorage [] b e BiomePaletteEncoding) (biomes c).
Proof. unfold EncodeBiomes, pool_Get. apply encode_storages_app. Qed.

(** The loop of [Encode] fills the slots after [pre] with the records of
    the sub-chunks [ss], each encoded with its own position. *)
Lemma encode_subs_app (c : Chunk Palette) e ss : forall (pre rest : list (list Z)),
  length rest = length ss ->
  encode_subs Palette c e (pre ++ rest) (length pre) ss
  = pre ++ imap (fun i s => EncodeSubChunk s e (r c) (Z.of_nat (length pre + i))) ss.
Proof.
  induction ss as [|s ss IH]; intros pre rest Hlen.
  - destruct rest; [reflexivity | discriminate].
  - destruct rest as [|x rest]; [discriminate|].
    cbn [encode_subs imap].
    rewrite (insert_app_r_alt pre _ (length pre)) by lia.
    rewrite Nat.sub_diag. cbn [insert list_insert].
    replace (pre ++ EncodeSubChunk s e (r c) (Z.of_nat (length pre)) :: rest)
      with ((pre ++ [EncodeSubChunk s e (r c) (Z.of_nat (length pre))]) ++ rest)
      by (rewrite <- app_assoc; reflexivity).
    replace (S (length pre))
      with (length (pre ++ [EncodeSubChunk s e (r c) (Z.of_nat (length pre))]))
      by (rewrite length_app; simpl; lia).
    rewrite IH by (simpl in Hlen; lia).
    rewrite <- app_assoc. cbn [app]. rewrite Nat.add_0_r.
    do 2 f_equal. apply imap_ext. intros i x' _. cbn.
    rewrite length_app. cbn. do 2 f_equal. lia.
Qed.

Lemma Encode_SubChunks (c : Chunk Palette) e :
  SubChunks (Encode c e)
  = imap (fun i s => EncodeSubChunk s e (r c) (Z.of_nat i)) (sub c).
Proof.
  unfold Encode. cbn [SubChunks].
  apply (encode_subs_app c e (sub c) [] _). apply length_replicate.
Qed.
End ChunkFacts.

(** For the bit widths a storage can have the header byte is the number
    [(bitsPerIndex << 1) | networkFlag] itself. *)
Lemma headerByte_small bits flag :
  0 <= bits < 128 -> 0 <= flag < 2 ->
  headerByte bits flag = Z.lor (Z.shiftl bits 1) flag.
Proof.
  intros Hb Hf. unfold headerByte. apply to_byte_small. unfold is_byte.
  assert (Hor : Z.lor (Z.shiftl bits 1) flag = 2 * bits + flag).
  { rewrite Z.shiftl_mul_pow2 by lia. change (2 ^ 1) with 2.
    rewrite (Z.mul_comm bits 2).
    assert (flag = 0 \/ flag = 1) as [-> | ->] by lia.
    - rewrite Z.lor_0_r. lia.
    - apply Z.bits_inj'. intros n Hn. rewrite Z.lor_spec.
      destruct (Z.eq_dec n 0) as [-> | Hne].
      + rewrite Z.testbit_odd_0, Z.testbit_even_0. reflexivity.
      + replace n with (Z.succ (n - 1)) by lia.
        rewrite Z.testbit_odd_succ, Z.testbit_even_succ by lia.
        change 1 with (2 * 0 + 1) at 2.
        rewrite Z.testbit_odd_succ by lia.
        rewrite Z.bits_0. apply orb_false_r. }
  rewrite Hor. lia.
Qed.

(** C4.  For every paletted storage and every palette kind, under the
    network and under the disk encoding, what [encodePalettedStorage] adds
    to the buffer is the header byte [(bitsPerIndex << 1) | networkFlag],
    with flag 1 for network and 0 for disk, then the words of the storage,
    each as four bytes that read lowest byte first give the word, then the
    palette record. *)
Theorem encodePalettedStorage_layout (Palette : Type)
    (networkPalette diskPalette : Palette -> paletteEncoding -> list Z)
    (buf : list Z) (st : PalettedStorage Palette) (pe : paletteEncoding) :
  encodePalettedStorage buf st (NetworkEncoding Palette networkPalette) pe
  = buf ++ [headerByte (bitsPerIndex st) 1]
        ++ flat_map word_bytes (indices st)
        ++ networkPalette (palette st) pe
  /\ encodePalettedStorage buf st (DiskEncoding Palette diskPalette) pe
     = buf ++ [headerByte (bitsPerIndex st) 0]
           ++ flat_map word_bytes (indices st)
           ++ diskPalette (palette st) pe
  /\ Forall (fun v => length (word_bytes v) = 4%nat
                      /\ Forall is_byte (word_bytes v)
                      /\ le_value (word_bytes v) = to_uint32 v) (indices st).
Proof.
  split; [|split].
  - unfold encodePalettedStorage. rewrite storage_bytes_eq.
    cbn [network encodePalette NetworkEncoding].
    rewrite to_byte_lor by (unfold is_byte; lia).
    rewrite <- !app_assoc. reflexivity.
  - unfold encodePalettedStorage. rewrite storage_bytes_eq.
    cbn [network encodePalette DiskEncoding].
    rewrite to_byte_lor by (unfold is_byte; lia).
    rewrite <- !app_assoc. reflexivity.
  - apply Forall_forall. intros v _.
    split; [apply word_bytes_length|].
    split; [apply word_bytes_range | apply word_bytes_le_value].
Qed.

(** C10.  For every storage, encoding and palette kind, the bytes written
    before the palette record are one byte and four more for each entry of
    [indices]: their number does not depend on the bit width or on the
    palette kind. *)
Theorem encodePalettedStorage_prefix_length (Palette : Type)
    (buf : list Z) (st : PalettedStorage Palette) (e : Encoding Palette)
    (pe : paletteEncoding) :
  encodePalettedStorage buf st e pe
  = buf ++ storage_bytes st e ++ encodePalette e (palette st) pe
  /\ length (storage_bytes st e) = (1 + 4 * length (indices st))%nat.
Proof.
  split.
  - unfold encodePalettedStorage. rewrite <- app_assoc. reflexivity.
  - apply storage_bytes_length.
Qed.

(** C5.  For every sub-chunk with at least one storage, [EncodeSubChunk]
    returns three header bytes, the version constant, the number of storages
    as a byte and the byte of [ind + (r[0] >> 4)], and after them the record
    of each storage in order, encoded with the block palette kind. *)
Theorem EncodeSubChunk_layout (Palette : Type) (s : SubChunk Palette)
    (e : Encoding Palette) (r : Z * Z) (ind : Z) :
  storages s <> [] ->
  EncodeSubChunk s e r ind
  = [SubChunkVersion;
     to_byte (Z.of_nat (length (storages s)));
     to_byte (ind + Z.shiftr (r.1) 4)]
    ++ flat_map (fun st => encodePalettedStorage [] st e BlockPaletteEncoding) (storages s)
  /\ SubChunkVersion = 9
  /\ ((length (storages s) < 256)%nat ->
      to_byte (Z.of_nat (length (storages s))) = Z.of_nat (length (storages s))).
Proof.
  intros _. split; [apply EncodeSubChunk_eq|].
  split; [reflexivity|].
  intros Hlt. apply to_byte_small. unfold is_byte. lia.
Qed.

Lemma EncodeSubChunk_layout_witness :
  let st := mkPalettedStorage unit 1 [305419896] tt in
  let e := mkEncoding unit 1 (fun _ _ => [2; 0; 2]) in
  storages (mkSubChunk unit [st]) <> []
  /\ EncodeSubChunk (mkSubChunk unit [st]) e (-64, 319) 3
     = [9; 1; 255; 3; 120; 86; 52; 18; 2; 0; 2].
Proof.
  intros st e.
  assert (Hne : storages (mkSubChunk unit [st]) <> []) by (simpl; discriminate).
  split; [exact Hne|].
  exact (proj1 (EncodeSubChunk_layout unit (mkSubChunk unit [st]) e (-64, 319) 3 Hne)).
Defined.

(** C6.  A sub-chunk with no storages is encoded as its three header bytes:
    the version, a count of zero and the vertical index; the result is not
    of length zero. *)
Theorem EncodeSubChunk_empty (Palette : Type) (e : Encoding Palette)
    (r : Z * Z) (ind : Z) :
  EncodeSubChunk (mkSubChunk Palette []) e r ind
  = [SubChunkVersion; 0; to_byte (ind + Z.shiftr (r.1) 4)]
  /\ length (EncodeSubChunk (mkSubChunk Palette []) e r ind) = 3%nat.
Proof. rewrite EncodeSubChunk_eq. split; reflexivity. Qed.

Example EncodeSubChunk_empty_overworld :
  EncodeSubChunk (mkSubChunk unit []) (mkEncoding unit 1 (fun _ _ => [])) (-64, 319) 0
  = [9; 0; 252].
Proof. reflexivity. Qed.

(** C7, as amended.  For every chunk and encoding, [Encode] gives one byte
    string for each sub-chunk, the result of [EncodeSubChunk] at the
    position of the sub-chunk, in order; [Biomes] is the concatenation of
    the records of the biome layers, encoded with the biome palette kind;
    [BlockNBT] is left empty. *)
Theorem Encode_layout (Palette : Type) (c : Chunk Palette) (e : Encoding Palette) :
  SubChunks (Encode c e)
  = imap (fun i s => EncodeSubChunk s e (r c) (Z.of_nat i)) (sub c)
  /\ length (SubChunks (Encode c e)) = length (sub c)
  /\ Biomes (Encode c e)
     = flat_map (fun b => encodePalettedStorage [] b e BiomePaletteEncoding) (biomes c)
  /\ BlockNBT (Encode c e) = [].
Proof.
  split; [apply Encode_SubChunks|].
  split; [rewrite Encode_SubChunks; apply length_imap|].
  split; [apply EncodeBiomes_eq | reflexivity].
Qed.

(** C7 as stated fails: the block-entity blob of the chunk does not reach
    the result. *)
Lemma Encode_drops_block_entities :
  let c := mkChunk unit [] [] (-64, 319) [10; 0; 0] in
  BlockNBT (Encode c (mkEncoding unit 1 (fun _ _ => []))) <> blockEntityBlob c.
Proof. intros c. cbn. discriminate. Qed.

(** ** Strings and their order *)

Lemma string_app_cons c (s t : string) : String c s +:+ t = String c (s +:+ t).
Proof. reflexivity. Qed.

Lemma string_app_nil_l (s : string) : "" +:+ s = s.
Proof. reflexivity. Qed.

Lemma string_app_nil_r (s : string) : s +:+ "" = s.
Proof.
  induction s as [|c s IH]; [reflexivity|].
  by rewrite string_app_cons, IH.
Qed.

Lemma string_app_assoc (s t u : string) : (s +:+ t) +:+ u = s +:+ (t +:+ u).
Proof.
  induction s as [|c s IH]; [reflexivity|].
  by rewrite !string_app_cons, IH.
Qed.

(** Two concatenations that agree and whose first parts are of one length
    agree part by part. *)
Lemma string_app_inj_length (s1 s2 t1 t2 : string) :
  String.length s1 = String.length s2 ->
  s1 +:+ t1 = s2 +:+ t2 -> s1 = s2 /\ t1 = t2.
Proof.
  revert s2. induction s1 as [|c s1 IH]; intros [|c2 s2] Hlen Heq;
    try discriminate.
  - by split.
  - rewrite !string_app_cons in Heq. injection Heq as -> Heq.
    injection Hlen as Hlen.
    destruct (IH s2 Hlen Heq) as [-> ->]. done.
Qed.

Lemma string_of_bytes_length bs : String.length (string_of_bytes bs) = length bs.
Proof. induction bs as [|b bs IH]; [reflexivity|]. cbn. by rewrite IH. Qed.

Lemma byte_of_char_of_byte b : is_byte b -> byte_of_char (char_of_byte b) = b.
Proof.
  intros Hb. unfold byte_of_char, char_of_byte.
  rewrite (to_byte_small b Hb).
  rewrite N_ascii_embedding; [apply Z2N.id; unfold is_byte in Hb; lia|].
  unfold is_byte in Hb. lia.
Qed.

Lemma string_of_bytes_inj bs1 bs2 :
  Forall is_byte bs1 -> Forall is_byte bs2 ->
  string_of_bytes bs1 = string_of_bytes bs2 -> bs1 = bs2.
Proof.
  intros H1. revert bs2. induction H1 as [|b1 bs1 Hb1 _ IH];
    intros bs2 H2 Heq; destruct H2 as [|b2 bs2 Hb2 H2]; try discriminate.
  - reflexivity.
  - cbn in Heq. injection Heq as Hc Heq.
    f_equal; [|by apply IH].
    rewrite <- (byte_of_char_of_byte b1 Hb1), <- (byte_of_char_of_byte b2 Hb2).
    by rewrite Hc.
Qed.

(** The order of the sorted keys is the order [String.le] on strings. *)
Lemma key_le_le a b : key_le a b <-> String.le a b.
Proof.
  unfold key_le, less, String.le, String.ltb, String.leb.
  rewrite (String.compare_antisym a b).
  destruct (String.compare b a); simpl; split; intros H; done.
Qed.

Global Instance key_le_total : Total key_le.
Proof.
  intros a b. rewrite !key_le_le. apply String.le_total.
Qed.

Global Instance key_le_trans : Transitive key_le.
Proof.
  intros a b c. rewrite !key_le_le. apply (transitivity (R := String.le)).
Qed.

Global Instance key_le_antisymm : AntiSymm (=) key_le.
Proof.
  intros a b. rewrite !key_le_le. apply (anti_symm String.le).
Qed.

Lemma sortKeys_sorted keys : StronglySorted key_le (sortKeys keys).
Proof. apply StronglySorted_merge_sort; apply _. Qed.

Lemma sortKeys_perm keys : sortKeys keys ≡ₚ keys.
Proof. apply merge_sort_Permutation. Qed.

(** There is one way to sort a slice: whatever algorithm [sort.Slice] runs,
    its result is [sortKeys]. *)
Lemma sortKeys_unique keys sorted :
  StronglySorted key_le sorted -> sorted ≡ₚ keys -> sorted = sortKeys keys.
Proof.
  intros Hs Hp. apply (StronglySorted_unique key_le); [done | apply sortKeys_sorted |].
  by rewrite Hp, sortKeys_perm.
Qed.

Lemma sortKeys_proper keys1 keys2 : keys1 ≡ₚ keys2 -> sortKeys keys1 = sortKeys keys2.
Proof.
  intros Hp. apply sortKeys_unique; [apply sortKeys_sorted|].
  by rewrite sortKeys_perm.
Qed.

(** ** Hashing a property bag *)

Lemma to_uint32_int32_inj a b :
  is_int32 a -> is_int32 b -> to_uint32 a = to_uint32 b -> a = b.
Proof.
  unfold is_int32, to_uint32. intros Ha Hb Heq.
  pose proof (Z.div_mod a (2 ^ 32) ltac:(lia)) as Hda.
  pose proof (Z.div_mod b (2 ^ 32) ltac:(lia)) as Hdb.
  pose proof (Z.mod_pos_bound a (2 ^ 32) ltac:(lia)) as Hma.
  pose proof (Z.mod_pos_bound b (2 ^ 32) ltac:(lia)) as Hmb.
  lia.
Qed.

Lemma to_uint32_idemp a : to_uint32 (to_uint32 a) = to_uint32 a.
Proof. unfold to_uint32. apply Z.mod_mod. lia. Qed.

(** The bit pattern of a 32-bit signed integer is its value cut to 32 bits. *)
Lemma to_uint32_twos_complement v : is_int32 v -> to_uint32 v = twos_complement32 v.
Proof.
  unfold is_int32, to_uint32, twos_complement32. intros Hv.
  destruct (Z.ltb_spec v 0) as [Hneg | Hpos].
  - symmetry. apply (Z.mod_unique v (2 ^ 32) (-1)); lia.
  - apply Z.mod_small. lia.
Qed.

Lemma int32_memory_length host v : length (int32_memory host v) = 4%nat.
Proof. destruct host; reflexivity. Qed.

Lemma int32_memory_range host v : Forall is_byte (int32_memory host v).
Proof.
  destruct host; cbn [int32_memory]; [apply word_bytes_range|].
  apply Forall_rev, word_bytes_range.
Qed.

Lemma int32_memory_inj host a b :
  is_int32 a -> is_int32 b -> int32_memory host a = int32_memory host b -> a = b.
Proof.
  intros Ha Hb Heq. apply to_uint32_int32_inj; [done..|].
  assert (Hw : word_bytes (to_uint32 a) = word_bytes (to_uint32 b)).
  { destruct host; cbn [int32_memory] in Heq; [done|].
    apply (f_equal (@rev Z)) in Heq. by rewrite !rev_involutive in Heq. }
  apply (f_equal le_value) in Hw.
  by rewrite !word_bytes_le_value, !to_uint32_idemp in Hw.
Qed.

Section HashFacts.
Variable host : ByteOrder.

(** What a round of the loop writes does not depend on what the builder
    holds. *)
Lemma writeProperty_builder b k v :
  writeProperty host b k v
  = match writeProperty host "" k v with
    | Returned d => Returned (b +:+ d)
    | Panicked p => Panicked p
    end.
Proof. destruct v as [[[]| | | |]|]; reflexivity. Qed.

Lemma hashKeys_builder m keys : forall b,
  hashKeys host m keys b
  = match hashKeys host m keys "" with
    | Returned d => Returned (b +:+ d)
    | Panicked p => Panicked p
    end.
Proof.
  induction keys as [|k keys IH]; intros b; cbn [hashKeys].
  - by rewrite string_app_nil_r.
  - rewrite (writeProperty_builder b).
    destruct (writeProperty host "" k (m !! k)) as [d|p]; [|done].
    rewrite (IH (b +:+ d)), (IH d).
    destruct (hashKeys host m keys "") as [d'|p]; [|done].
    by rewrite string_app_assoc.
Qed.

Lemma hashKeys_cons m k keys :
  hashKeys host m (k :: keys) ""
  = match writeProperty host "" k (m !! k) with
    | Returned d =>
        match hashKeys host m keys "" with
        | Returned d' => Returned (d +:+ d')
        | Panicked p => Panicked p
        end
    | Panicked p => Panicked p
    end.
Proof.
  cbn [hashKeys]. destruct (writeProperty host "" k (m !! k)) as [d|p]; [|done].
  apply hashKeys_builder.
Qed.

Lemma writeProperty_hashable k v :
  hashable v -> exists d, writeProperty host "" k (Some v) = Returned d.
Proof. destruct v as [[]| | | |]; intros Hv; try done; eexists; reflexivity. Qed.

Lemma like_hashable v w : like v w -> hashable v /\ hashable w.
Proof. destruct v, w; simpl; tauto. Qed.

(** The keys and the types left aside, the bytes written for a value tell
    which value it was. *)
Lemma writeProperty_like_inj k v w d1 d2 :
  like v w ->
  writeProperty host "" k (Some v) = Returned d1 ->
  writeProperty host "" k (Some w) = Returned d2 ->
  String.length d1 = String.length d2 /\ (d1 = d2 -> v = w).
Proof.
  destruct v as [b1|a1|a1|s1|t1], w as [b2|a2|a2|s2|t2]; simpl; try done.
  - intros _ H1 H2.
    destruct b1, b2; injection H1 as <-; injection H2 as <-;
      (split; [reflexivity|]); intros Heq; try done; vm_compute in Heq; discriminate.
  - intros [Ha1 Ha2] H1 H2. injection H1 as <-. injection H2 as <-.
    split; [reflexivity|]. rewrite !string_app_nil_l. intros Heq.
    apply (string_of_bytes_inj [a1] [a2]) in Heq;
      [| by apply Forall_cons_2, Forall_nil_2..].
    by injection Heq as ->.
  - intros [Ha1 Ha2] H1 H2. injection H1 as <-. injection H2 as <-.
    rewrite !string_app_nil_l, !string_of_bytes_length, !int32_memory_length.
    split; [reflexivity|]. intros Heq.
    apply string_of_bytes_inj in Heq; [| apply int32_memory_range..].
    f_equal. by apply (int32_memory_inj host).
  - intros Hlen H1 H2. injection H1 as <-. injection H2 as <-.
    rewrite !string_app_nil_l. split; [done|]. by intros ->.
Qed.

Lemma hashKeys_hashable m keys :
  (forall k, k ∈ keys -> exists v, m !! k = Some v /\ hashable v) ->
  exists d, hashKeys host m keys "" = Returned d.
Proof.
  induction keys as [|k keys IH]; intros Hall.
  - by exists "".
  - destruct (Hall k) as (v & Hv & Hh); [by left|].
    destruct (writeProperty_hashable k v Hh) as [d Hd].
    destruct IH as [d' Hd']; [intros k' Hk'; apply Hall; by right|].
    rewrite hashKeys_cons, Hv, Hd, Hd'. by eexists.
Qed.

Lemma hashKeys_like_inj m1 m2 keys :
  (forall k, k ∈ keys -> exists v w, m1 !! k = Some v /\ m2 !! k = Some w /\ like v w) ->
  hashKeys host m1 keys "" = hashKeys host m2 keys "" ->
  forall k, k ∈ keys -> m1 !! k = m2 !! k.
Proof.
  induction keys as [|k keys IH]; intros Hall Heq k' Hk'.
  - by apply elem_of_nil in Hk'.
  - assert (Hrest : forall k, k ∈ keys ->
              exists v w, m1 !! k = Some v /\ m2 !! k = Some w /\ like v w)
      by (intros k0 Hk0; apply Hall; by right).
    destruct (Hall k) as (v & w & Hv & Hw & Hlike); [by left|].
    destruct (like_hashable v w Hlike) as [Hhv Hhw].
    destruct (writeProperty_hashable k v Hhv) as [d1 Hd1].
    destruct (writeProperty_hashable k w Hhw) as [d2 Hd2].
    destruct (hashKeys_hashable m1 keys) as [r1 Hr1].
    { intros k0 Hk0. destruct (Hrest k0 Hk0) as (v0 & w0 & ? & ? & Hl).
      exists v0. split; [done|]. by apply (like_hashable v0 w0). }
    destruct (hashKeys_hashable m2 keys) as [r2 Hr2].
    { intros k0 Hk0. destruct (Hrest k0 Hk0) as (v0 & w0 & ? & ? & Hl).
      exists w0. split; [done|]. by apply (like_hashable v0 w0). }
    rewrite !hashKeys_cons, Hv, Hw, Hd1, Hd2, Hr1, Hr2 in Heq.
    injection Heq as Heq.
    destruct (writeProperty_like_inj k v w d1 d2 Hlike Hd1 Hd2) as [Hlen Hinj].
    destruct (string_app_inj_length _ _ _ _ Hlen Heq) as [Hd Hr].
    apply elem_of_cons in Hk' as [-> | Hk'].
    + rewrite Hv, Hw. f_equal. by apply Hinj.
    + apply IH; [done | | done]. by rewrite Hr1, Hr2, Hr.
Qed.

Lemma range_keys_elem (m : gmap string value) k : k ∈ range_keys m <-> is_Some (m !! k).
Proof.
  unfold range_keys. rewrite list_elem_of_fmap. split.
  - intros ([k0 v] & -> & Hin). apply elem_of_map_to_list in Hin. by exists v.
  - intros [v Hv]. exists (k, v). split; [done|]. by apply elem_of_map_to_list.
Qed.

Lemma range_keys_dom (m1 m2 : gmap string value) :
  dom m1 = dom m2 -> range_keys m1 ≡ₚ range_keys m2.
Proof.
  intros Hdom. apply NoDup_Permutation; [apply NoDup_fst_map_to_list..|].
  intros k. rewrite !range_keys_elem, <- !elem_of_dom. by rewrite Hdom.
Qed.

Lemma hashProperties_bag p :
  hashProperties host p = hashKeys host (bag p) (sortKeys (range_keys (bag p))) "".
Proof. destruct p as [m|]; reflexivity. Qed.

Lemma prop_lookup_bag p k : prop_lookup p k = bag p !! k.
Proof. destruct p as [m|]; [reflexivity|]. symmetry. apply lookup_empty. Qed.
End HashFacts.

(** C1, as amended.  Two bags with the same key set and the same value
    under every key have equal digests, and the digest does not depend on
    the order in which the keys of the map are walked.  The converse holds
    among bags that are [alike]: with the same key set, values of the same
    type under every key and strings of the same length, equal digests come
    from equal bags only.  (The digest holds neither the keys, nor the types,
    nor the lengths of the values.) *)
Theorem hashProperties_digest (host : ByteOrder) (p q : properties) :
  ((forall k, prop_lookup p k = prop_lookup q k) ->
   hashProperties host p = hashProperties host q)
  /\ (forall (m : gmap string value) (ranged : list string),
        ranged ≡ₚ range_keys m ->
        hashProperties_ranged host ranged m = hashProperties host (Some m))
  /\ (alike p q ->
      hashProperties host p = hashProperties host q ->
      forall k, prop_lookup p k = prop_lookup q k).
Proof.
  split; [|split].
  - intros Hsame. rewrite !hashProperties_bag.
    assert (bag p = bag q) as ->; [|done].
    apply map_eq. intros k. by rewrite <- !prop_lookup_bag.
  - intros m ranged Hperm. cbn [hashProperties]. unfold hashProperties_ranged.
    by rewrite (sortKeys_proper _ _ Hperm).
  - intros [Hdom Hlike] Heq k. rewrite !prop_lookup_bag.
    rewrite !hashProperties_bag in Heq.
    rewrite <- (sortKeys_proper _ _ (range_keys_dom _ _ Hdom)) in Heq.
    destruct (bag p !! k) as [v|] eqn:Hk.
    + rewrite <- Hk.
      apply (hashKeys_like_inj host _ _ (sortKeys (range_keys (bag p)))); [|done|].
      * intros k0 Hk0. rewrite sortKeys_perm in Hk0.
        apply range_keys_elem in Hk0 as [v0 Hv0].
        specialize (Hlike k0 v0 Hv0). cbn beta in Hlike.
        destruct (bag q !! k0) as [w0|]; [|done]. by exists v0, w0.
      * rewrite sortKeys_perm. apply range_keys_elem. by exists v.
    + symmetry. apply not_elem_of_dom. rewrite <- Hdom. by apply not_elem_of_dom.
Qed.

Lemma hashProperties_digest_witness :
  let p := Some (<["facing" := VString "north"]> (<["age" := VInt32 (-3)]> ∅)) in
  let q := Some (<["age" := VInt32 (-3)]> (<["facing" := VString "north"]> ∅)) in
  alike p q
  /\ hashProperties LittleEndian p = hashProperties LittleEndian q
  /\ forall k, prop_lookup p k = prop_lookup q k.
Proof.
  intros p q.
  assert (Ha : alike p q) by (apply (bool_decide_unpack _); vm_compute; exact I).
  assert (He : hashProperties LittleEndian p = hashProperties LittleEndian q)
    by (vm_compute; reflexivity).
  split; [exact Ha|]. split; [exact He|].
  exact (proj2 (proj2 (hashProperties_digest LittleEndian p q)) Ha He).
Defined.

(** C1 as stated fails: two bags with the same keys that differ in both
    values have one digest. *)
Lemma hashProperties_collision :
  let p := Some (<["a" := VString "x"]> (<["b" := VString "yz"]> ∅)) in
  let q := Some (<["a" := VString "xy"]> (<["b" := VString "z"]> ∅)) in
  hashProperties LittleEndian p = hashProperties LittleEndian q
  /\ prop_lookup p "a" <> prop_lookup q "a".
Proof. intros p q. split; [vm_compute; reflexivity | vm_compute; discriminate]. Qed.

(** A bag with a key, a type or a length changed can keep its digest too. *)
Example hashProperties_collision_type :
  hashProperties LittleEndian (Some {["lit" := VBool true]})
  = hashProperties LittleEndian (Some {["lit" := VUint8 1]}).
Proof. vm_compute. reflexivity. Qed.

Example hashProperties_collision_key :
  hashProperties LittleEndian (Some {["lit" := VBool true]})
  = hashProperties LittleEndian (Some {["open" := VBool true]}).
Proof. vm_compute. reflexivity. Qed.

(** ** The bytes of an [int32] property *)

Lemma twos_complement32_range v : is_int32 v -> is_uint32 (twos_complement32 v).
Proof.
  unfold is_int32, is_uint32, twos_complement32. intros Hv.
  destruct (Z.ltb_spec v 0); lia.
Qed.

Lemma hashProperties_singleton host k v :
  hashProperties host (Some {[k := v]}) = writeProperty host "" k (Some v).
Proof.
  cbn [hashProperties]. unfold hashProperties_ranged, range_keys.
  rewrite map_to_list_singleton. cbn [fmap list_fmap fst].
  change (sortKeys [k]) with [k]. cbn [hashKeys].
  rewrite lookup_singleton_eq.
  by destruct (writeProperty host "" k (Some v)).
Qed.

(** C8, as amended.  On a little-endian host, for every [int32] value,
    negative ones among them, [hashProperties] appends to the digest four
    bytes that, read lowest byte first, are the two's-complement bit pattern
    of the value.  On any host the four bytes are those of the value in the
    order of the host's memory. *)
Theorem hashProperties_int32_bytes (n : Z) (b k : string) :
  is_int32 n ->
  let bs := word_bytes (twos_complement32 n) in
  writeProperty LittleEndian b k (Some (VInt32 n)) = Returned (b +:+ string_of_bytes bs)
  /\ hashProperties LittleEndian (Some {[k := VInt32 n]}) = Returned (string_of_bytes bs)
  /\ length bs = 4%nat
  /\ Forall is_byte bs
  /\ le_value bs = twos_complement32 n
  /\ forall host, writeProperty host b k (Some (VInt32 n))
                  = Returned (b +:+ string_of_bytes (int32_memory host n)).
Proof.
  intros Hn bs. subst bs.
  split; [|split; [|split; [|split; [|split]]]].
  - cbn [writeProperty int32_memory]. by rewrite to_uint32_twos_complement.
  - rewrite hashProperties_singleton. cbn [writeProperty int32_memory].
    by rewrite to_uint32_twos_complement, string_app_nil_l.
  - reflexivity.
  - apply word_bytes_range.
  - rewrite word_bytes_le_value. unfold to_uint32.
    pose proof (twos_complement32_range n Hn) as Hr. unfold is_uint32 in Hr.
    apply Z.mod_small. lia.
  - reflexivity.
Qed.

Lemma hashProperties_int32_bytes_witness :
  is_int32 (-2)
  /\ hashProperties LittleEndian (Some {["age" := VInt32 (-2)]})
     = Returned (string_of_bytes [254; 255; 255; 255]).
Proof.
  assert (Hn : is_int32 (-2)) by (unfold is_int32; lia).
  split; [exact Hn|].
  exact (proj1 (proj2 (hashProperties_int32_bytes (-2) "" "age" Hn))).
Defined.

(** C8 as stated fails: on a big-endian host the four bytes come highest
    byte first. *)
Lemma hashProperties_int32_big_endian :
  hashProperties BigEndian (Some {["age" := VInt32 1]})
  = Returned (string_of_bytes [0; 0; 0; 1])
  /\ hashProperties BigEndian (Some {["age" := VInt32 1]})
     <> Returned (string_of_bytes (word_bytes (twos_complement32 1))).
Proof. split; [vm_compute; reflexivity | vm_compute; discriminate]. Qed.

(** ** Properties of a type the hash has no case for *)

Section PanicFacts.
Variable host : ByteOrder.

(** The loop stops at the first key, in sorted order, that holds a value of
    another type. *)
Lemma hashKeys_other (m : gmap string value) keys :
  (forall k, k ∈ keys -> is_Some (m !! k)) ->
  (exists k ty, k ∈ keys /\ m !! k = Some (VOther ty)) ->
  exists k' ty', m !! k' = Some (VOther ty')
    /\ forall b, hashKeys host m keys b = Panicked (InvalidPropertyType ty' k').
Proof.
  induction keys as [|k0 keys IH]; intros Hdom (k & ty & Hin & Hk).
  - by apply elem_of_nil in Hin.
  - destruct (Hdom k0) as [v0 Hv0]; [by left|].
    destruct (decide (hashable v0)) as [Hh | Hh].
    + destruct IH as (k' & ty' & Hk' & Hpanic).
      * intros k1 Hk1. apply Hdom. by right.
      * exists k, ty. split; [|done].
        apply elem_of_cons in Hin as [-> | Hin]; [|done].
        rewrite Hk in Hv0. injection Hv0 as <-. done.
      * exists k', ty'. split; [done|]. intros b. cbn [hashKeys].
        rewrite Hv0, (writeProperty_builder host b).
        destruct (writeProperty_hashable host k0 v0 Hh) as [d ->].
        apply Hpanic.
    + destruct v0 as [| | | |ty0]; try (exfalso; apply Hh; exact I).
      exists k0, ty0. split; [done|]. intros b. cbn [hashKeys]. by rewrite Hv0.
Qed.

Lemma init_app pre : forall post g g',
  init host pre g = (g', Returned tt) ->
  init host (pre ++ post) g = init host post g'.
Proof.
  induction pre as [|s pre IH]; intros post g g' Hpre; cbn [init app] in *.
  - by injection Hpre as ->.
  - destruct (registerBlockState host s g) as [g1 [[]|p]]; [|done].
    by apply IH.
Qed.
End PanicFacts.

(** C9, as amended.  For every bag that holds a value of a type other than
    [bool], [uint8], [int32] and [string], [hashProperties] panics with the
    type and the key of such a value and returns no digest.  The panic
    unwinds through [registerBlockState], which leaves the registry as it
    was, and out of [init]: nothing turns it into an error that is
    returned. *)
Theorem hashProperties_invalid_type (host : ByteOrder) (m : gmap string value)
    (k ty : string) :
  m !! k = Some (VOther ty) ->
  exists k' ty',
    m !! k' = Some (VOther ty')
    /\ hashProperties host (Some m) = Panicked (InvalidPropertyType ty' k')
    /\ ~ returns (hashProperties host (Some m))
    /\ forall s g, Properties s = Some m ->
         registerBlockState host s g = (g, Panicked (InvalidPropertyType ty' k'))
         /\ forall pre post g0,
              init host pre g0 = (g, Returned tt) ->
              init host (pre ++ s :: post) g0 = (g, Panicked (InvalidPropertyType ty' k')).
Proof.
  intros Hk.
  destruct (hashKeys_other host m (sortKeys (range_keys m))) as (k' & ty' & Hk' & Hpanic).
  - intros k0 Hk0. rewrite sortKeys_perm in Hk0. by apply range_keys_elem.
  - exists k, ty. split; [|done]. rewrite sortKeys_perm. apply range_keys_elem. by eexists.
  - assert (Hhash : hashProperties host (Some m) = Panicked (InvalidPropertyType ty' k'))
      by apply Hpanic.
    exists k', ty'. split; [done|]. split; [done|]. split.
    { rewrite Hhash. intros [d Hd]. discriminate. }
    intros s g Hs.
    assert (Hreg : registerBlockState host s g = (g, Panicked (InvalidPropertyType ty' k'))).
    { unfold registerBlockState. by rewrite Hs, Hhash. }
    split; [done|]. intros pre post g0 Hpre.
    rewrite (init_app host pre (s :: post) g0 g Hpre). cbn [init]. by rewrite Hreg.
Qed.

Lemma hashProperties_invalid_type_witness :
  let m : gmap string value := {["level" := VOther "float32"]} in
  m !! "level" = Some (VOther "float32")
  /\ exists k' ty', hashProperties LittleEndian (Some m) = Panicked (InvalidPropertyType ty' k').
Proof.
  intros m.
  assert (Hk : m !! "level" = Some (VOther "float32")) by (vm_compute; reflexivity).
  split; [exact Hk|].
  destruct (hashProperties_invalid_type LittleEndian m "level" "float32" Hk)
    as (k' & ty' & _ & Hpanic & _).
  exists k', ty'. exact Hpanic.
Defined.

(** C9 as stated fails: at the boundary of the registry build the fault is
    a panic that unwinds out of [init]; [init] does not return, with an
    error or without. *)
Lemma init_invalid_type_unwinds :
  let s := mkBlockState "minecraft:stone" (Some {["level" := VOther "float32"]}) 1 in
  init LittleEndian [s] (initial [] [])
  = (initial [] [], Panicked (InvalidPropertyType "float32" "level"))
  /\ ~ returns (init LittleEndian [s] (initial [] [])).2.
Proof.
  intros s.
  assert (H : init LittleEndian [s] (initial [] [])
              = (initial [] [], Panicked (InvalidPropertyType "float32" "level")))
    by (vm_compute; reflexivity).
  split; [exact H|]. rewrite H. intros [u Hu]. discriminate.
Qed.

(** ** The registry *)

Section RegistryFacts.
Variable host : ByteOrder.

Lemma hash_of_Some s h :
  hash_of host s = Some h <->
  exists d, hashProperties host (Properties s) = Returned d /\ h = mkStateHash (Name s) d.
Proof.
  unfold hash_of. destruct (hashProperties host (Properties s)) as [d|p]; split.
  - intros [= <-]. by exists d.
  - intros (d' & [= <-] & ->). done.
  - done.
  - intros (d' & Hd & _). discriminate.
Qed.

(** Registering a state whose key is free. *)
Lemma registerBlockState_fresh s g h :
  hash_of host s = Some h ->
  stateRuntimeIDs g !! h = None ->
  exists g',
    registerBlockState host s g = (g', Returned tt)
    /\ blocks g' = blocks g ++ [s]
    /\ stateRuntimeIDs g'
       = <[h := to_uint32 (Z.of_nat (length (blocks g)))]> (stateRuntimeIDs g).
Proof.
  intros (d & Hd & ->)%hash_of_Some Hfree. unfold registerBlockState.
  rewrite Hd. cbn zeta. rewrite Hfree. eexists. split; [reflexivity|]. by split.
Qed.

(** Registering a state whose key is taken. *)
Lemma registerBlockState_taken s g h :
  hash_of host s = Some h ->
  is_Some (stateRuntimeIDs g !! h) ->
  registerBlockState host s g = (g, Panicked (DuplicateState s)).
Proof.
  intros (d & Hd & ->)%hash_of_Some [rid Hrid]. unfold registerBlockState.
  rewrite Hd. cbn zeta. by rewrite Hrid.
Qed.

(** The loop of [init] over records with pairwise distinct keys, none of
    them in the registry yet: every record is registered, in order, under
    the next free index. *)
Lemma init_distinct stream hs :
  Forall2 (fun s h => hash_of host s = Some h) stream hs ->
  forall g,
    NoDup hs ->
    (forall h, h ∈ hs -> stateRuntimeIDs g !! h = None) ->
    exists g',
      init host stream g = (g', Returned tt)
      /\ blocks g' = blocks g ++ stream
      /\ (forall (i : nat) h, hs !! i = Some h ->
            stateRuntimeIDs g' !! h
            = Some (to_uint32 (Z.of_nat (length (blocks g) + i))))
      /\ (forall h, h ∉ hs -> stateRuntimeIDs g' !! h = stateRuntimeIDs g !! h).
Proof.
  induction 1 as [|s h stream hs Hh _ IH]; intros g Hnd Hfree.
  - exists g. split; [done|]. split; [by rewrite app_nil_r|]. split; [|done].
    intros i h Hi. by rewrite lookup_nil in Hi.
  - apply NoDup_cons in Hnd as [Hnotin Hnd].
    destruct (registerBlockState_fresh s g h Hh) as (g1 & Hreg & Hb1 & Hm1).
    { apply Hfree. by left. }
    destruct (IH g1 Hnd) as (g' & Hinit & Hb' & Hids & Hrest).
    { intros h' Hin. rewrite Hm1, lookup_insert_ne; [apply Hfree; by right|].
      intros ->. done. }
    exists g'. cbn [init]. rewrite Hreg. split; [done|].
    split; [by rewrite Hb', Hb1, <- app_assoc|]. split.
    + intros [|i] h' Hi; cbn in Hi.
      * injection Hi as <-. rewrite (Hrest h Hnotin), Hm1, lookup_insert_eq.
        by rewrite Nat.add_0_r.
      * rewrite (Hids i h' Hi), Hb1, length_app. cbn. do 3 f_equal. lia.
    + intros h' Hnot. apply not_elem_of_cons in Hnot as [Hne Hnot].
      rewrite (Hrest h' Hnot), Hm1. by apply lookup_insert_ne.
Qed.

Lemma StateToRuntimeID_registered g s h rid :
  hash_of host s = Some h ->
  stateRuntimeIDs g !! h = Some rid ->
  StateToRuntimeID host g (Name s) (Properties s) = Returned (rid, true).
Proof.
  intros (d & Hd & ->)%hash_of_Some Hrid. unfold StateToRuntimeID.
  by rewrite Hd, Hrid.
Qed.
End RegistryFacts.

Lemma to_uint32_small i : is_uint32 i -> to_uint32 i = i.
Proof. unfold is_uint32, to_uint32. intros Hi. apply Z.mod_small. lia. Qed.

(** C2.  For every sequence of block states with pairwise distinct keys
    (name and digest), registered in order from the empty registry, the
    build returns; the record at position [i] is registered under the
    runtime ID [i], counting from 0, and afterwards [StateToRuntimeID] on
    its name and properties returns [(i, true)]. *)
Theorem registered_runtime_ids (host : ByteOrder) (stream : list blockState)
    (hs : list stateHash) (filtering light : list Z) :
  Forall2 (fun s h => hash_of host s = Some h) stream hs ->
  NoDup hs ->
  Z.of_nat (length stream) <= 2 ^ 32 ->
  exists g,
    init host stream (initial filtering light) = (g, Returned tt)
    /\ blocks g = stream
    /\ forall (i : nat) s, stream !! i = Some s ->
         (exists gi gi' h,
            init host (take i stream) (initial filtering light) = (gi, Returned tt)
            /\ registerBlockState host s gi = (gi', Returned tt)
            /\ hash_of host s = Some h
            /\ stateRuntimeIDs gi !! h = None
            /\ stateRuntimeIDs gi' !! h = Some (Z.of_nat i))
         /\ StateToRuntimeID host g (Name s) (Properties s) = Returned (Z.of_nat i, true).
Proof.
  intros Hhs Hnd Hlen.
  destruct (init_distinct host stream hs Hhs (initial filtering light) Hnd)
    as (g & Hinit & Hblocks & Hids & _); [intros h _; apply lookup_empty|].
  exists g. split; [done|]. split; [done|].
  intros i s Hi.
  pose proof (lookup_lt_Some _ _ _ Hi) as Hlt.
  destruct (Forall2_lookup_l _ _ _ _ _ Hhs Hi) as (h & Hhi & Hh).
  assert (Hsmall : to_uint32 (Z.of_nat i) = Z.of_nat i)
    by (apply to_uint32_small; unfold is_uint32; lia).
  split.
  - rewrite <- (take_drop i hs) in Hnd. apply NoDup_app in Hnd as (Hnd1 & Hdisj & _).
    destruct (init_distinct host (take i stream) (take i hs)
                (Forall2_take _ _ _ i Hhs) (initial filtering light) Hnd1)
      as (gi & Hgi & Hbi & _ & Hresti); [intros h' _; apply lookup_empty|].
    assert (Hnot : h ∉ take i hs).
    { intros Hin. apply (Hdisj h Hin).
      apply list_elem_of_lookup. exists 0%nat.
      rewrite lookup_drop, Nat.add_0_r. done. }
    assert (Hfree : stateRuntimeIDs gi !! h = None).
    { rewrite (Hresti h Hnot). apply lookup_empty. }
    destruct (registerBlockState_fresh host s gi h Hh Hfree) as (gi' & Hreg & _ & Hmi').
    exists gi, gi', h. split; [done|]. split; [done|]. split; [done|]. split; [done|].
    rewrite Hmi', lookup_insert_eq, Hbi. cbn [initial blocks app].
    rewrite length_take, Nat.min_l by lia. by rewrite Hsmall.
  - apply (StateToRuntimeID_registered host g s h); [done|].
    rewrite (Hids i h Hhi). cbn [initial blocks length Nat.add]. by rewrite Hsmall.
Qed.

Lemma registered_runtime_ids_witness :
  let air := mkBlockState "minecraft:air" None 1 in
  let granite := mkBlockState "minecraft:stone" (Some {["type" := VString "granite"]}) 1 in
  let hs := [mkStateHash "minecraft:air" ""; mkStateHash "minecraft:stone" "granite"] in
  Forall2 (fun s h => hash_of LittleEndian s = Some h) [air; granite] hs
  /\ NoDup hs
  /\ Z.of_nat (length [air; granite]) <= 2 ^ 32
  /\ exists g,
       init LittleEndian [air; granite] (initial [] []) = (g, Returned tt)
       /\ StateToRuntimeID LittleEndian g "minecraft:air" None = Returned (0, true)
       /\ StateToRuntimeID LittleEndian g "minecraft:stone"
            (Some {["type" := VString "granite"]}) = Returned (1, true).
Proof.
  intros air granite hs.
  assert (H1 : Forall2 (fun s h => hash_of LittleEndian s = Some h) [air; granite] hs)
    by (repeat constructor; vm_compute; reflexivity).
  assert (H2 : NoDup hs) by (apply (bool_decide_unpack _); vm_compute; exact I).
  assert (H3 : Z.of_nat (length [air; granite]) <= 2 ^ 32) by (simpl; lia).
  split; [exact H1|]. split; [exact H2|]. split; [exact H3|].
  destruct (registered_runtime_ids LittleEndian [air; granite] hs [] [] H1 H2 H3)
    as (g & Hinit & _ & Hids).
  exists g. split; [exact Hinit|]. split.
  - exact (proj2 (Hids 0%nat air eq_refl)).
  - exact (proj2 (Hids 1%nat granite eq_refl)).
Defined.

(** C3.  Registering a block state whose key (name and digest) is in the
    registry already panics with [DuplicateState]; the registry after the
    failed attempt is the registry before it: as many blocks, as many keys,
    and the key still maps to the runtime ID of the first registration. *)
Theorem registerBlockState_duplicate (host : ByteOrder) (s : blockState)
    (g : registry) (d : string) (rid : Z) :
  hashProperties host (Properties s) = Returned d ->
  stateRuntimeIDs g !! mkStateHash (Name s) d = Some rid ->
  exists g',
    registerBlockState host s g = (g', Panicked (DuplicateState s))
    /\ g' = g
    /\ length (blocks g') = length (blocks g)
    /\ size (stateRuntimeIDs g') = size (stateRuntimeIDs g)
    /\ stateRuntimeIDs g' !! mkStateHash (Name s) d = Some rid
    /\ StateToRuntimeID host g' (Name s) (Properties s) = Returned (rid, true).
Proof.
  intros Hd Hrid. exists g.
  assert (Hh : hash_of host s = Some (mkStateHash (Name s) d))
    by (apply hash_of_Some; by exists d).
  split; [apply (registerBlockState_taken host s g _ Hh); by exists rid|].
  split; [done|]. split; [done|]. split; [done|]. split; [done|].
  by apply (StateToRuntimeID_registered host g s _ rid Hh).
Qed.

Lemma registerBlockState_duplicate_witness :
  let granite := mkBlockState "minecraft:stone" (Some {["type" := VString "granite"]}) 1 in
  let again := mkBlockState "minecraft:stone" (Some {["type" := VString "granite"]}) 2 in
  let g := (init LittleEndian [mkBlockState "minecraft:air" None 1; granite] (initial [] [])).1 in
  hashProperties LittleEndian (Properties again) = Returned "granite"
  /\ stateRuntimeIDs g !! mkStateHash (Name again) "granite" = Some 1
  /\ registerBlockState LittleEndian again g = (g, Panicked (DuplicateState again)).
Proof.
  intros granite again g.
  assert (H1 : hashProperties LittleEndian (Properties again) = Returned "granite")
    by (vm_compute; reflexivity).
  assert (H2 : stateRuntimeIDs g !! mkStateHash (Name again) "granite" = Some 1)
    by (vm_compute; reflexivity).
  split; [exact H1|]. split; [exact H2|].
  destruct (registerBlockState_duplicate LittleEndian again g "granite" 1 H1 H2)
    as (g' & Hreg & -> & _).
  exact Hreg.
Defined.

(** * Further properties of the registry *)

Section RegistryInvariants.
Variable host : ByteOrder.

(** A call of [registerBlockState] either registers the state under a key
    that was free, or panics and leaves the registry as it was. *)
Lemma registerBlockState_cases s g :
  (exists h,
      hash_of host s = Some h
      /\ stateRuntimeIDs g !! h = None
      /\ registerBlockState host s g
         = (mkRegistry (blocks g ++ [s])
                       (<[h := to_uint32 (Z.of_nat (length (blocks g)))]> (stateRuntimeIDs g))
                       (nbtBlocks g ++ [false])
                       (randomTickBlocks g ++ [false])
                       (if decide (Name s = "minecraft:air")
                        then to_uint32 (Z.of_nat (length (blocks g)))
                        else airRID g)
                       (FilteringBlocks g ++ [15])
                       (LightBlocks g ++ [0]),
            Returned tt))
  \/ (exists p, registerBlockState host s g = (g, Panicked p)).
Proof.
  unfold registerBlockState, hash_of.
  destruct (hashProperties host (Properties s)) as [d|p]; [|right; by exists p].
  cbn zeta. destruct (stateRuntimeIDs g !! mkStateHash (Name s) d) as [rid|] eqn:Hrid.
  - right. by eexists.
  - left. eexists. by repeat split.
Qed.

Lemma init_cons_returned s stream g g1 :
  registerBlockState host s g = (g1, Returned tt) ->
  init host (s :: stream) g = init host stream g1.
Proof. intros H. cbn [init]. by rewrite H. Qed.

Lemma init_cons_panicked s stream g g1 p :
  registerBlockState host s g = (g1, Panicked p) ->
  init host (s :: stream) g = (g1, Panicked p).
Proof. intros H. cbn [init]. by rewrite H. Qed.

(** X1.  Whatever the stream and however the loop of [init] ends, the
    tables stay in step: for some [n], the first [n] records of the stream
    have been added to [blocks], and each of the four tables indexed by
    runtime ID has grown by [n] entries of its default value, as has the map
    by [n] keys; [n] is the length of the stream when [init] returns. *)
Theorem init_tables_in_step stream : forall g,
  exists n : nat,
    (n <= length stream)%nat
    /\ blocks (init host stream g).1 = blocks g ++ take n stream
    /\ nbtBlocks (init host stream g).1 = nbtBlocks g ++ replicate n false
    /\ randomTickBlocks (init host stream g).1 = randomTickBlocks g ++ replicate n false
    /\ FilteringBlocks (init host stream g).1 = FilteringBlocks g ++ replicate n 15
    /\ LightBlocks (init host stream g).1 = LightBlocks g ++ replicate n 0
    /\ size (stateRuntimeIDs (init host stream g).1) = (size (stateRuntimeIDs g) + n)%nat
    /\ ((init host stream g).2 = Returned tt -> n = length stream).
Proof.
  induction stream as [|s stream IH]; intros g.
  - exists 0%nat. cbn. rewrite !app_nil_r. repeat split; lia.
  - destruct (registerBlockState_cases s g) as [(h & _ & Hfree & Hreg) | (p & Hreg)].
    + rewrite (init_cons_returned _ _ _ _ Hreg).
      destruct (IH (mkRegistry (blocks g ++ [s])
                      (<[h := to_uint32 (Z.of_nat (length (blocks g)))]> (stateRuntimeIDs g))
                      (nbtBlocks g ++ [false]) (randomTickBlocks g ++ [false])
                      (if decide (Name s = "minecraft:air")
                       then to_uint32 (Z.of_nat (length (blocks g))) else airRID g)
                      (FilteringBlocks g ++ [15]) (LightBlocks g ++ [0])))
        as (n & Hn & Hb & Hnbt & Hrt & Hf & Hl & Hsz & Hret).
      cbn [blocks nbtBlocks randomTickBlocks FilteringBlocks LightBlocks stateRuntimeIDs]
        in Hb, Hnbt, Hrt, Hf, Hl, Hsz.
      exists (S n). cbn [length take replicate].
      rewrite Hb, Hnbt, Hrt, Hf, Hl, Hsz, <- !app_assoc.
      rewrite map_size_insert_None by done.
      repeat split; try done; try lia.
      intros Ho. by rewrite (Hret Ho).
    + rewrite (init_cons_panicked _ _ _ _ _ Hreg). exists 0%nat. cbn.
      rewrite !app_nil_r. repeat split; try done; lia.
Qed.

Lemma init_returned_blocks stream g g' :
  init host stream g = (g', Returned tt) -> blocks g' = blocks g ++ stream.
Proof.
  intros Hinit.
  destruct (init_tables_in_step stream g) as (n & _ & Hb & _ & _ & _ & _ & _ & Hret).
  rewrite Hinit in Hb, Hret. cbn [fst snd] in Hb, Hret.
  rewrite Hb, (Hret eq_refl). by rewrite firstn_all.
Qed.

(** X2.  When [init] panics, the registry holds the records before the
    first one that cannot be registered, and nothing of the rest: the panic
    is the one [registerBlockState] raises for that record on the registry
    built so far. *)
Theorem init_panic_prefix stream : forall g g' p,
  init host stream g = (g', Panicked p) ->
  exists (n : nat) s,
    stream !! n = Some s
    /\ init host (take n stream) g = (g', Returned tt)
    /\ registerBlockState host s g' = (g', Panicked p)
    /\ blocks g' = blocks g ++ take n stream.
Proof.
  induction stream as [|s stream IH]; intros g g' p Hinit; [discriminate|].
  destruct (registerBlockState_cases s g) as [(h & _ & _ & Hreg) | (p0 & Hreg)].
  - rewrite (init_cons_returned _ _ _ _ Hreg) in Hinit.
    destruct (IH _ g' p Hinit) as (n & s' & Hn & Hpre & Hfail & Hb).
    exists (S n), s'. split; [done|]. cbn [take].
    rewrite (init_cons_returned _ _ _ _ Hreg). split; [done|]. split; [done|].
    rewrite Hb. cbn [blocks]. by rewrite <- app_assoc.
  - rewrite (init_cons_panicked _ _ _ _ _ Hreg) in Hinit.
    injection Hinit as <- <-. exists 0%nat, s. cbn. by rewrite app_nil_r.
Qed.

End RegistryInvariants.

Lemma init_panic_prefix_witness :
  let air := mkBlockState "minecraft:air" None 1 in
  let stone := mkBlockState "minecraft:stone" (Some {["type" := VString "granite"]}) 1 in
  let g' := (init LittleEndian [air] (initial [] [])).1 in
  init LittleEndian [air; air; stone] (initial [] []) = (g', Panicked (DuplicateState air))
  /\ exists (n : nat) s,
       [air; air; stone] !! n = Some s
       /\ registerBlockState LittleEndian s g' = (g', Panicked (DuplicateState air))
       /\ blocks g' = take n [air; air; stone].
Proof.
  intros air stone g'.
  assert (H : init LittleEndian [air; air; stone] (initial [] [])
              = (g', Panicked (DuplicateState air))) by (vm_compute; reflexivity).
  split; [exact H|].
  destruct (init_panic_prefix LittleEndian [air; air; stone] (initial [] []) g' _ H)
    as (n & s & Hn & _ & Hfail & Hb).
  exists n, s. split; [exact Hn|]. split; [exact Hfail | exact Hb].
Defined.

Section RegistryLookups.
Variable host : ByteOrder.

Lemma initial_consistent filtering light : consistent host (initial filtering light).
Proof.
  split.
  - intros i s Hi. cbn in Hi. by rewrite lookup_nil in Hi.
  - intros h rid Hh. cbn in Hh. by rewrite lookup_empty in Hh.
Qed.

Lemma registerBlockState_consistent s g :
  consistent host g -> consistent host (registerBlockState host s g).1.
Proof.
  intros [Hfwd Hbwd].
  destruct (registerBlockState_cases host s g) as [(h & Hh & Hfree & ->) | (p & ->)];
    [|by split].
  cbn [fst]. split; cbn [blocks stateRuntimeIDs].
  - intros i s' Hi. apply lookup_app_Some in Hi as [Hi | [Hge Hi]].
    + destruct (Hfwd i s' Hi) as (h' & Hh' & Hm). exists h'. split; [done|].
      rewrite lookup_insert_ne; [done|]. intros ->. by rewrite Hfree in Hm.
    + apply list_lookup_singleton_Some in Hi as [Hi <-].
      exists h. split; [done|]. rewrite lookup_insert_eq. do 3 f_equal. lia.
  - intros h' rid Hm. destruct (decide (h = h')) as [<- | Hne].
    + rewrite lookup_insert_eq in Hm. injection Hm as <-.
      exists (length (blocks g)), s. split; [|done].
      rewrite lookup_app_r, Nat.sub_diag; [done | lia].
    + rewrite lookup_insert_ne in Hm by done.
      destruct (Hbwd h' rid Hm) as (i & s' & Hi & Hh' & ->).
      exists i, s'. split; [|done]. by apply lookup_app_l_Some.
Qed.

Lemma init_consistent stream : forall g,
  consistent host g -> consistent host (init host stream g).1.
Proof.
  induction stream as [|s stream IH]; intros g Hg; [done|].
  pose proof (registerBlockState_consistent s g Hg) as H1.
  cbn [init]. destruct (registerBlockState host s g) as [g1 [[]|p]]; cbn [fst] in *.
  - by apply IH.
  - done.
Qed.

Lemma init_blocks_bound stream g :
  (length (blocks (init host stream g).1) <= length (blocks g) + length stream)%nat.
Proof.
  destruct (init_tables_in_step host stream g) as (n & Hn & Hb & _).
  rewrite Hb, length_app, length_take. lia.
Qed.


(** X4.  In the registry [init] leaves, a runtime ID that [StateToRuntimeID]
    reports as found is an index into the block table, and the block there
    has the name asked for and properties with the digest of those asked
    for. *)
Theorem found_id_resolves stream filtering light name p rid :
  Z.of_nat (length stream) <= 2 ^ 32 ->
  StateToRuntimeID host (init host stream (initial filtering light)).1 name p
  = Returned (rid, true) ->
  0 <= rid < Z.of_nat (length (blocks (init host stream (initial filtering light)).1))
  /\ exists s,
       blocks (init host stream (initial filtering light)).1 !! Z.to_nat rid = Some s
       /\ Name s = name
       /\ hashProperties host (Properties s) = hashProperties host p.
Proof.
  intros Hlen Hfound.
  destruct (init_consistent stream _ (initial_consistent filtering light)) as [_ Hbwd].
  pose proof (init_blocks_bound stream (initial filtering light)) as Hb.
  cbn [initial blocks length] in Hb.
  unfold StateToRuntimeID in Hfound.
  destruct (hashProperties host p) as [d|] eqn:Hd; [|discriminate].
  destruct (stateRuntimeIDs _ !! _) as [rid0|] eqn:Hm; [|discriminate].
  injection Hfound as ->.
  destruct (Hbwd _ _ Hm) as (i & s & Hi & Hh & ->).
  pose proof (lookup_lt_Some _ _ _ Hi) as Hlt.
  rewrite to_uint32_small by (unfold is_uint32; lia).
  split; [lia|]. exists s. rewrite Nat2Z.id. split; [done|].
  apply hash_of_Some in Hh as (d' & Hd' & [= <- <-]). by rewrite Hd'.
Qed.

(** X5.  In the registry [init] leaves, [StateToRuntimeID] answers
    [(0, false)] exactly when the properties asked for can be hashed and no
    block of the table has the name asked for together with their digest. *)
Theorem unregistered_state_not_found stream filtering light name p :
  StateToRuntimeID host (init host stream (initial filtering light)).1 name p
  = Returned (0, false)
  <-> returns (hashProperties host p)
      /\ forall s, s ∈ blocks (init host stream (initial filtering light)).1 ->
           ~ (Name s = name
              /\ hashProperties host (Properties s) = hashProperties host p).
Proof.
  destruct (init_consistent stream _ (initial_consistent filtering light)) as [Hfwd Hbwd].
  unfold StateToRuntimeID. split.
  - destruct (hashProperties host p) as [d|] eqn:Hd; [|discriminate].
    destruct (stateRuntimeIDs _ !! _) as [rid0|] eqn:Hm; [discriminate|].
    intros _. split; [by exists d|].
    intros s Hin [Hname Hdig]. apply list_elem_of_lookup in Hin as [i Hi].
    destruct (Hfwd i s Hi) as (h & Hh & Hmi).
    apply hash_of_Some in Hh as (d' & Hd' & ->).
    rewrite Hd' in Hdig. injection Hdig as ->. rewrite Hname in Hmi.
    by rewrite Hm in Hmi.
  - intros [[d Hd] Hnone]. rewrite Hd.
    destruct (stateRuntimeIDs _ !! _) as [rid0|] eqn:Hm; [|done].
    destruct (Hbwd _ _ Hm) as (i & s & Hi & Hh & _).
    apply hash_of_Some in Hh as (d' & Hd' & [= Hname Hdig]).
    exfalso. apply (Hnone s); [by apply list_elem_of_lookup_2 with i|].
    by rewrite Hd', Hd, Hname, Hdig.
Qed.

(** The keys of a stream [init] gets through are defined, pairwise distinct
    and new to the registry. *)
Lemma init_returned_distinct stream : forall g g',
  init host stream g = (g', Returned tt) ->
  exists hs,
    Forall2 (fun s h => hash_of host s = Some h) stream hs
    /\ NoDup hs
    /\ forall h, h ∈ hs -> stateRuntimeIDs g !! h = None.
Proof.
  induction stream as [|s stream IH]; intros g g' Hinit.
  - exists []. split; [constructor|]. split; [constructor|].
    intros h Hin. by apply elem_of_nil in Hin.
  - destruct (registerBlockState_cases host s g) as [(h & Hh & Hfree & Hreg) | (p & Hreg)].
    + rewrite (init_cons_returned host _ _ _ _ Hreg) in Hinit.
      destruct (IH _ g' Hinit) as (hs & Hhs & Hnd & Hnew).
      cbn [stateRuntimeIDs] in Hnew.
      assert (Hnotin : h ∉ hs).
      { intros Hin. specialize (Hnew h Hin). by rewrite lookup_insert_eq in Hnew. }
      exists (h :: hs). split; [by constructor|]. split; [by constructor|].
      intros h' Hin. apply elem_of_cons in Hin as [-> | Hin]; [done|].
      specialize (Hnew h' Hin). rewrite lookup_insert_ne in Hnew; [done|].
      intros ->. done.
    + rewrite (init_cons_panicked host _ _ _ _ _ Hreg) in Hinit. discriminate.
Qed.

(** X6.  From the empty registry, [init] returns exactly when the properties
    of every record of the stream can be hashed and no two records have the
    same key (name and digest); in every other case it panics. *)
Theorem init_returns_iff stream filtering light :
  returns (init host stream (initial filtering light)).2
  <-> exists hs,
        Forall2 (fun s h => hash_of host s = Some h) stream hs /\ NoDup hs.
Proof.
  split.
  - intros [[] Hret].
    destruct (init host stream (initial filtering light)) as [g o] eqn:Hinit.
    cbn [snd] in Hret. subst o.
    destruct (init_returned_distinct stream _ _ Hinit) as (hs & Hhs & Hnd & _).
    by exists hs.
  - intros (hs & Hhs & Hnd).
    destruct (init_distinct host stream hs Hhs (initial filtering light) Hnd)
      as (g & Hinit & _); [intros h _; apply lookup_empty|].
    rewrite Hinit. by exists tt.
Qed.

End RegistryLookups.


Lemma found_id_resolves_witness :
  let air := mkBlockState "minecraft:air" None 1 in
  let granite := mkBlockState "minecraft:stone" (Some {["type" := VString "granite"]}) 1 in
  let g := (init LittleEndian [air; granite] (initial [] [])).1 in
  Z.of_nat (length [air; granite]) <= 2 ^ 32
  /\ StateToRuntimeID LittleEndian g "minecraft:air" (Some ∅) = Returned (0, true)
  /\ exists s, blocks g !! Z.to_nat 0 = Some s /\ Name s = "minecraft:air".
Proof.
  intros air granite g.
  assert (H1 : Z.of_nat (length [air; granite]) <= 2 ^ 32) by (simpl; lia).
  assert (H2 : StateToRuntimeID LittleEndian g "minecraft:air" (Some ∅) = Returned (0, true))
    by (vm_compute; reflexivity).
  split; [exact H1|]. split; [exact H2|].
  destruct (found_id_resolves LittleEndian [air; granite] [] [] _ _ _ H1 H2)
    as (_ & s & Hs & Hname & _).
  exists s. split; [exact Hs | exact Hname].
Defined.

Section AirRID.
Variable host : ByteOrder.

Lemma init_app_returned pre : forall post g g',
  init host (pre ++ post) g = (g', Returned tt) ->
  exists g1, init host pre g = (g1, Returned tt) /\ init host post g1 = (g', Returned tt).
Proof.
  induction pre as [|s pre IH]; intros post g g' Hinit.
  - exists g. by split.
  - cbn [app] in Hinit.
    destruct (registerBlockState_cases host s g) as [(h & _ & _ & Hreg) | (p & Hreg)].
    + rewrite (init_cons_returned host _ _ _ _ Hreg) in Hinit.
      destruct (IH post _ g' Hinit) as (g1 & Hpre & Hpost).
      exists g1. by rewrite (init_cons_returned host _ _ _ _ Hreg).
    + rewrite (init_cons_panicked host _ _ _ _ _ Hreg) in Hinit. discriminate.
Qed.

(** X7.  Records of any other name leave [airRID] as it was, however the
    loop of [init] ends: from the variables as declared, where [airRID] is
    0, a stream without a record named [minecraft:air] leaves it 0, the
    runtime ID of the first state registered. *)
Theorem init_airRID_unchanged stream : forall g,
  Forall (fun s => Name s <> "minecraft:air") stream ->
  airRID (init host stream g).1 = airRID g.
Proof.
  induction stream as [|s stream IH]; intros g Hall; [done|].
  apply Forall_cons in Hall as [Hs Hall].
  destruct (registerBlockState_cases host s g) as [(h & _ & _ & Hreg) | (p & Hreg)].
  - rewrite (init_cons_returned host _ _ _ _ Hreg), (IH _ Hall). cbn [airRID].
    by destruct (decide (Name s = "minecraft:air")).
  - by rewrite (init_cons_panicked host _ _ _ _ _ Hreg).
Qed.

(** X8.  When [init] returns, [airRID] is the runtime ID of the last record
    of the stream named [minecraft:air]: its position in the stream, counted
    from the number of blocks the registry held before. *)
Theorem init_airRID_last pre s post g g' :
  init host (pre ++ s :: post) g = (g', Returned tt) ->
  Name s = "minecraft:air" ->
  Forall (fun s' => Name s' <> "minecraft:air") post ->
  airRID g' = to_uint32 (Z.of_nat (length (blocks g) + length pre))
  /\ blocks g' !! (length (blocks g) + length pre)%nat = Some s.
Proof.
  intros Hinit Hs Hpost.
  pose proof (init_returned_blocks host _ _ _ Hinit) as Hblocks.
  destruct (init_app_returned pre (s :: post) g g' Hinit) as (g1 & Hpre & Hrest).
  pose proof (init_returned_blocks host _ _ _ Hpre) as Hb1.
  split.
  - destruct (registerBlockState_cases host s g1) as [(h & _ & _ & Hreg) | (p & Hreg)].
    + rewrite (init_cons_returned host _ _ _ _ Hreg) in Hrest.
      match type of Hrest with
      | init _ _ ?g2 = _ => pose proof (init_airRID_unchanged post g2 Hpost) as Hair
      end.
      rewrite Hrest in Hair. cbn [fst airRID] in Hair.
      rewrite Hair, Hb1, length_app.
      by destruct (decide (Name s = "minecraft:air")).
    + rewrite (init_cons_panicked host _ _ _ _ _ Hreg) in Hrest. discriminate.
  - rewrite Hblocks, app_assoc, <- length_app.
    rewrite lookup_app_r by lia. by rewrite Nat.sub_diag.
Qed.
End AirRID.

Lemma init_airRID_unchanged_witness :
  let stone := mkBlockState "minecraft:stone" (Some {["type" := VString "granite"]}) 1 in
  let dirt := mkBlockState "minecraft:dirt" None 1 in
  Forall (fun s => Name s <> "minecraft:air") [stone; dirt]
  /\ airRID (init LittleEndian [stone; dirt] (initial [] [])).1 = 0.
Proof.
  intros stone dirt.
  assert (H : Forall (fun s => Name s <> "minecraft:air") [stone; dirt])
    by (repeat constructor; simpl; discriminate).
  split; [exact H|].
  exact (init_airRID_unchanged LittleEndian [stone; dirt] (initial [] []) H).
Defined.

Lemma init_airRID_last_witness :
  let stone := mkBlockState "minecraft:stone" (Some {["type" := VString "granite"]}) 1 in
  let air := mkBlockState "minecraft:air" None 1 in
  let dirt := mkBlockState "minecraft:dirt" None 1 in
  let g' := (init LittleEndian [stone; air; dirt] (initial [] [])).1 in
  init LittleEndian ([stone] ++ air :: [dirt]) (initial [] []) = (g', Returned tt)
  /\ Name air = "minecraft:air"
  /\ Forall (fun s' => Name s' <> "minecraft:air") [dirt]
  /\ airRID g' = 1.
Proof.
  intros stone air dirt g'.
  assert (H1 : init LittleEndian ([stone] ++ air :: [dirt]) (initial [] [])
               = (g', Returned tt)) by (vm_compute; reflexivity).
  assert (H2 : Name air = "minecraft:air") by reflexivity.
  assert (H3 : Forall (fun s' => Name s' <> "minecraft:air") [dirt])
    by (repeat constructor; simpl; discriminate).
  split; [exact H1|]. split; [exact H2|]. split; [exact H3|].
  exact (proj1 (init_airRID_last LittleEndian [stone] air [dirt] _ g' H1 H2 H3)).
Defined.

(** * Further properties of the hash *)

Section HashMore.
Variable host : ByteOrder.

Lemma key_le_refl k : key_le k k.
Proof. apply key_le_le. reflexivity. Qed.

Lemma writeProperty_panic b k v p :
  writeProperty host b k (Some v) = Panicked p ->
  exists ty, v = VOther ty /\ p = InvalidPropertyType ty k.
Proof.
  destruct v as [[]| | | |ty]; try discriminate.
  intros [= <-]. by exists ty.
Qed.

(** X9.  [hashProperties] returns a digest exactly when every value of the
    bag is a [bool], a [uint8], an [int32] or a [string]; a nil map and an
    empty map always hash. *)
Theorem hashProperties_returns_iff (p : properties) :
  returns (hashProperties host p)
  <-> forall k v, prop_lookup p k = Some v -> hashable v.
Proof.
  rewrite hashProperties_bag. split.
  - intros [d Hd] k v Hk. rewrite prop_lookup_bag in Hk.
    destruct (decide (hashable v)) as [|Hbad]; [done|].
    destruct v as [| | | |ty]; try (exfalso; apply Hbad; exact I).
    destruct (hashKeys_other host (bag p) (sortKeys (range_keys (bag p))))
      as (k' & ty' & _ & Hpanic).
    + intros k0 Hk0. rewrite sortKeys_perm in Hk0. by apply range_keys_elem.
    + exists k, ty. split; [|done]. rewrite sortKeys_perm. apply range_keys_elem.
      by eexists.
    + rewrite Hpanic in Hd. discriminate.
  - intros Hall. apply hashKeys_hashable. intros k Hk.
    rewrite sortKeys_perm in Hk. apply range_keys_elem in Hk as [v Hv].
    exists v. split; [done|]. apply (Hall k). by rewrite prop_lookup_bag.
Qed.

(** Over sorted keys the loop panics at the least key that holds a value of
    another type. *)
Lemma hashKeys_panic_first (m : gmap string value) keys :
  StronglySorted key_le keys ->
  (forall k, k ∈ keys -> is_Some (m !! k)) ->
  forall b p, hashKeys host m keys b = Panicked p ->
  exists k ty,
    p = InvalidPropertyType ty k
    /\ k ∈ keys
    /\ m !! k = Some (VOther ty)
    /\ forall k' ty', k' ∈ keys -> m !! k' = Some (VOther ty') -> key_le k k'.
Proof.
  induction keys as [|k0 keys IH]; intros Hsorted Hdom b p Hpanic; [discriminate|].
  apply StronglySorted_cons in Hsorted as [Hle Hsorted].
  destruct (Hdom k0) as [v0 Hv0]; [by left|].
  cbn [hashKeys] in Hpanic. rewrite Hv0 in Hpanic.
  destruct (writeProperty host b k0 (Some v0)) as [b'|p0] eqn:Hw.
  - destruct (IH Hsorted) with (b := b') (p := p) as (k & ty & -> & Hin & Hk & Hmin);
      [intros k1 Hk1; apply Hdom; by right | done |].
    exists k, ty. split; [done|]. split; [by right|]. split; [done|].
    intros k' ty' Hin' Hk'. apply elem_of_cons in Hin' as [-> | Hin'].
    + rewrite Hv0 in Hk'. injection Hk' as ->. discriminate.
    + by apply (Hmin k' ty').
  - injection Hpanic as ->.
    destruct (writeProperty_panic _ _ _ _ Hw) as (ty & -> & ->).
    exists k0, ty. split; [done|]. split; [by left|]. split; [done|].
    intros k' ty' Hin' _. apply elem_of_cons in Hin' as [-> | Hin'].
    + apply key_le_refl.
    + by apply (proj1 (Forall_forall _ _) Hle).
Qed.

(** X10.  When [hashProperties] panics, it reports a key that holds a value
    of another type, with that type, and no key holding such a value is
    [less] than the one reported: of several bad properties the first in
    sorted order is named, whatever the order the map is walked in. *)
Theorem hashProperties_panic_first_key (m : gmap string value) (p : panic) :
  hashProperties host (Some m) = Panicked p ->
  exists k ty,
    p = InvalidPropertyType ty k
    /\ m !! k = Some (VOther ty)
    /\ forall k' ty', m !! k' = Some (VOther ty') -> less k' k = false.
Proof.
  intros Hpanic.
  destruct (hashKeys_panic_first m (sortKeys (range_keys m)) (sortKeys_sorted _))
    with (b := "") (p := p) as (k & ty & -> & _ & Hk & Hmin); [|done|].
  { intros k0 Hk0. rewrite sortKeys_perm in Hk0. by apply range_keys_elem. }
  exists k, ty. split; [done|]. split; [done|].
  intros k' ty' Hk'. apply (Hmin k' ty'); [|done].
  rewrite sortKeys_perm. apply range_keys_elem. by eexists.
Qed.

Lemma hashKeys_app m keys1 keys2 : forall b,
  hashKeys host m (keys1 ++ keys2) b
  = match hashKeys host m keys1 b with
    | Returned d => hashKeys host m keys2 d
    | Panicked p => Panicked p
    end.
Proof.
  induction keys1 as [|k keys1 IH]; intros b; [done|].
  cbn [app hashKeys]. destruct (writeProperty host b k (m !! k)); [apply IH | done].
Qed.

Lemma hashKeys_ext (m1 m2 : gmap string value) keys : forall b,
  (forall k, k ∈ keys -> m1 !! k = m2 !! k) ->
  hashKeys host m1 keys b = hashKeys host m2 keys b.
Proof.
  induction keys as [|k keys IH]; intros b Hext; [done|].
  cbn [hashKeys]. rewrite (Hext k) by (by left).
  destruct (writeProperty host b k (m2 !! k)); [|done].
  apply IH. intros k' Hk'. apply Hext. by right.
Qed.

Lemma range_keys_insert (m : gmap string value) k v :
  m !! k = None -> range_keys (<[k := v]> m) ≡ₚ k :: range_keys m.
Proof.
  intros Hk. unfold range_keys. by rewrite (map_to_list_insert m k v Hk).
Qed.

(** X11.  Adding a property under a key that no key of the bag is greater
    than appends its bytes to the digest of the bag: the digest of the
    larger bag is what one more round of the loop writes after the digest
    of the smaller one. *)
Theorem hashProperties_insert_last (m : gmap string value) (k : string) (v : value) :
  m !! k = None ->
  map_Forall (fun k' _ => less k k' = false) m ->
  hashProperties host (Some (<[k := v]> m))
  = match hashProperties host (Some m) with
    | Returned d => writeProperty host d k (Some v)
    | Panicked p => Panicked p
    end.
Proof.
  intros Hk Hmax. cbn [hashProperties]. unfold hashProperties_ranged.
  assert (Hkeys : sortKeys (range_keys (<[k := v]> m)) = sortKeys (range_keys m) ++ [k]).
  { symmetry. apply sortKeys_unique.
    - apply StronglySorted_app_2; [|apply sortKeys_sorted | repeat constructor].
      intros k1 k2 Hk1 Hk2. apply list_elem_of_singleton in Hk2 as ->.
      rewrite sortKeys_perm in Hk1. apply range_keys_elem in Hk1 as [v1 Hv1].
      apply (Hmax k1 v1 Hv1).
    - rewrite range_keys_insert by done. rewrite sortKeys_perm.
      symmetry. apply Permutation_cons_append. }
  rewrite Hkeys, hashKeys_app.
  rewrite (hashKeys_ext (<[k := v]> m) m).
  - destruct (hashKeys host m (sortKeys (range_keys m)) "") as [d|p]; [|done].
    cbn [hashKeys]. rewrite lookup_insert_eq.
    by destruct (writeProperty host d k (Some v)).
  - intros k' Hk'. rewrite sortKeys_perm in Hk'. apply range_keys_elem in Hk' as [v' Hv'].
    apply lookup_insert_ne. intros ->. by rewrite Hk in Hv'.
Qed.
End HashMore.

Lemma hashProperties_panic_first_key_witness :
  let m : gmap string value :=
    <["level" := VOther "float32"]> (<["age" := VOther "int64"]> (<["type" := VString "oak"]> ∅)) in
  hashProperties LittleEndian (Some m) = Panicked (InvalidPropertyType "int64" "age")
  /\ exists k ty, InvalidPropertyType "int64" "age" = InvalidPropertyType ty k
       /\ less "level" k = false.
Proof.
  intros m.
  assert (H : hashProperties LittleEndian (Some m)
              = Panicked (InvalidPropertyType "int64" "age")) by (vm_compute; reflexivity).
  split; [exact H|].
  destruct (hashProperties_panic_first_key LittleEndian m _ H) as (k & ty & Hp & _ & Hmin).
  exists k, ty. split; [exact Hp|].
  apply (Hmin "level" "float32"). vm_compute. reflexivity.
Defined.

Lemma hashProperties_insert_last_witness :
  let m : gmap string value := {["age" := VInt32 3]} in
  m !! "facing" = None
  /\ map_Forall (fun k' _ => less "facing" k' = false) m
  /\ hashProperties LittleEndian (Some (<["facing" := VString "north"]> m))
     = Returned (string_of_bytes [3; 0; 0; 0] +:+ "north").
Proof.
  intros m.
  assert (H1 : m !! "facing" = None) by (vm_compute; reflexivity).
  assert (H2 : map_Forall (fun k' _ => less "facing" k' = false) m)
    by (apply (bool_decide_unpack _); vm_compute; exact I).
  split; [exact H1|]. split; [exact H2|].
  rewrite (hashProperties_insert_last LittleEndian m "facing" (VString "north") H1 H2).
  vm_compute. reflexivity.
Defined.



(** * Further properties of the chunk encoder *)

Lemma lor_shiftl_flag bits flag :
  0 <= flag < 2 -> Z.lor (Z.shiftl bits 1) flag = 2 * bits + flag.
Proof.
  intros Hf. rewrite Z.shiftl_mul_pow2 by lia. change (2 ^ 1) with 2.
  rewrite (Z.mul_comm bits 2).
  assert (flag = 0 \/ flag = 1) as [-> | ->] by lia.
  - rewrite Z.lor_0_r. lia.
  - apply Z.bits_inj'. intros n Hn. rewrite Z.lor_spec.
    destruct (Z.eq_dec n 0) as [-> | Hne].
    + rewrite Z.testbit_odd_0, Z.testbit_even_0. reflexivity.
    + replace n with (Z.succ (n - 1)) by lia.
      rewrite Z.testbit_odd_succ, Z.testbit_even_succ by lia.
      change 1 with (2 * 0 + 1) at 2.
      rewrite Z.testbit_odd_succ by lia.
      rewrite Z.bits_0. apply orb_false_r.
Qed.

Lemma word_bytes_inj v1 v2 :
  is_uint32 v1 -> is_uint32 v2 -> word_bytes v1 = word_bytes v2 -> v1 = v2.
Proof.
  intros H1 H2 Heq. apply (f_equal le_value) in Heq.
  by rewrite !word_bytes_le_value, !to_uint32_small in Heq.
Qed.

Lemma flat_map_word_bytes_inj vs1 : forall vs2,
  Forall is_uint32 vs1 -> Forall is_uint32 vs2 ->
  flat_map word_bytes vs1 = flat_map word_bytes vs2 -> vs1 = vs2.
Proof.
  induction vs1 as [|v1 vs1 IH]; intros [|v2 vs2] H1 H2 Heq; try done.
  apply Forall_cons in H1 as [Hv1 H1]. apply Forall_cons in H2 as [Hv2 H2].
  cbn [flat_map] in Heq.
  apply app_inj_1 in Heq as [Hw Hrest]; [|reflexivity].
  f_equal; [by apply word_bytes_inj | by apply IH].
Qed.

Section ChunkMore.
Variable Palette : Type.
Implicit Types (st : PalettedStorage Palette) (e : Encoding Palette).

(** X13.  For a bit width below 128 and a network flag of 0 or 1, the first
    byte [encodePalettedStorage] writes gives both back: the byte shifted
    right by one is the bit width, and its lowest bit is the flag. *)
Theorem storage_header_fields st e (buf : list Z) (pe : paletteEncoding) :
  0 <= bitsPerIndex st < 128 ->
  0 <= network e < 2 ->
  exists h,
    encodePalettedStorage buf st e pe !! length buf = Some h
    /\ is_byte h
    /\ Z.shiftr h 1 = bitsPerIndex st
    /\ Z.land h 1 = network e.
Proof.
  intros Hb Hf. unfold encodePalettedStorage. rewrite storage_bytes_eq.
  rewrite <- app_assoc, lookup_app_r, Nat.sub_diag by lia. cbn [app lookup list_lookup].
  eexists. split; [reflexivity|].
  rewrite to_byte_small.
  - rewrite lor_shiftl_flag by done. split; [unfold is_byte; lia|]. split.
    + rewrite Z.shiftr_div_pow2 by lia. change (2 ^ 1) with 2.
      symmetry. apply (Z.div_unique _ 2 _ (network e)); lia.
    + change 1 with (Z.ones 1). rewrite Z.land_ones by lia. change (2 ^ 1) with 2.
      symmetry. apply (Z.mod_unique _ 2 (bitsPerIndex st)); lia.
  - unfold is_byte. rewrite Z.shiftl_mul_pow2 by lia. change (2 ^ 1) with 2. lia.
Qed.

(** X14.  The bytes written before the palette record tell two storages
    apart: with words that are [uint32], bit widths below 128 and a network
    flag of 0 or 1, storages with the same such bytes have the same bit
    width and the same words. *)
Theorem storage_bytes_inj st1 st2 e :
  Forall is_uint32 (indices st1) ->
  Forall is_uint32 (indices st2) ->
  0 <= bitsPerIndex st1 < 128 ->
  0 <= bitsPerIndex st2 < 128 ->
  0 <= network e < 2 ->
  storage_bytes st1 e = storage_bytes st2 e ->
  bitsPerIndex st1 = bitsPerIndex st2 /\ indices st1 = indices st2.
Proof.
  intros H1 H2 Hb1 Hb2 Hf. rewrite !storage_bytes_eq. intros [= Hh Hw].
  split; [|by apply flat_map_word_bytes_inj].
  rewrite !to_byte_small in Hh
    by (unfold is_byte; rewrite Z.shiftl_mul_pow2 by lia; change (2 ^ 1) with 2; lia).
  rewrite !lor_shiftl_flag in Hh by done. lia.
Qed.

(** X15.  The length of a sub-chunk record: three header bytes and, for
    every storage, one byte, four for each word and the bytes of its
    palette record. *)
Theorem EncodeSubChunk_length (s : SubChunk Palette) e (r : Z * Z) (ind : Z) :
  length (EncodeSubChunk s e r ind)
  = (3 + sum_list_with
           (fun st => 1 + 4 * length (indices st)
                      + length (encodePalette e (palette st) BlockPaletteEncoding))
           (storages s))%nat.
Proof.
  rewrite EncodeSubChunk_eq, length_app. cbn [length]. do 3 f_equal.
  induction (storages s) as [|st sts IH]; [done|].
  cbn [flat_map sum_list_with]. rewrite length_app, IH. f_equal.
  unfold encodePalettedStorage. cbn [app].
  rewrite length_app, storage_bytes_length. lia.
Qed.

Lemma to_byte_add_inj i j c :
  0 <= i < 256 -> 0 <= j < 256 -> to_byte (i + c) = to_byte (j + c) -> i = j.
Proof.
  unfold to_byte. intros Hi Hj Heq.
  pose proof (Z.div_mod (i + c) 256 ltac:(lia)) as Hdi.
  pose proof (Z.div_mod (j + c) 256 ltac:(lia)) as Hdj.
  lia.
Qed.

(** X16.  In a chunk of at most 256 sub-chunks, the records [Encode] gives
    for two different positions carry different vertical-index bytes. *)
Theorem Encode_vertical_index_distinct (c : Chunk Palette) e (i j : nat) bi bj :
  (length (sub c) <= 256)%nat ->
  i <> j ->
  SubChunks (Encode c e) !! i = Some bi ->
  SubChunks (Encode c e) !! j = Some bj ->
  bi !! 2%nat <> bj !! 2%nat.
Proof.
  intros Hlen Hne Hi Hj. rewrite Encode_SubChunks in Hi, Hj.
  rewrite list_lookup_imap in Hi, Hj.
  destruct (sub c !! i) as [si|] eqn:Hsi; [|discriminate].
  destruct (sub c !! j) as [sj|] eqn:Hsj; [|discriminate].
  injection Hi as <-. injection Hj as <-.
  apply lookup_lt_Some in Hsi. apply lookup_lt_Some in Hsj.
  rewrite !EncodeSubChunk_eq. cbn. intros [= Heq].
  apply to_byte_add_inj in Heq; lia.
Qed.

(** X17.  Used with a pool whose idle buffers are all empty, the encoders
    return what they return from a buffer of their own, whichever buffer
    the pool hands out, and leave a pool whose idle buffers are all empty:
    the buffer goes back reset. *)
Theorem pooled_encoders_reset (pick : nat) (idle : list (list Z))
    (s : SubChunk Palette) (c : Chunk Palette) e (r : Z * Z) (ind : Z) :
  Forall (fun buf => buf = []) idle ->
  (EncodeSubChunk_pooled pick idle s e r ind).1 = EncodeSubChunk s e r ind
  /\ Forall (fun buf => buf = []) (EncodeSubChunk_pooled pick idle s e r ind).2
  /\ (EncodeBiomes_pooled pick idle c e).1 = EncodeBiomes c e
  /\ Forall (fun buf => buf = []) (EncodeBiomes_pooled pick idle c e).2.
Proof.
  intros Hidle.
  assert (Htake : (pool_take pick idle).1 = []
                  /\ Forall (fun buf => buf = []) (pool_take pick idle).2).
  { unfold pool_take. destruct (idle !! pick) as [buf|] eqn:Hpick; cbn [fst snd].
    - split.
      + apply (proj1 (Forall_forall _ _) Hidle). by apply list_elem_of_lookup_2 with pick.
      + by apply Forall_delete.
    - by split. }
  destruct Htake as [Hbuf Hrest].
  unfold EncodeSubChunk_pooled, EncodeBiomes_pooled, EncodeSubChunk, EncodeBiomes, pool_Get.
  destruct (pool_take pick idle) as [buf idle']. cbn [fst snd] in *. subst buf.
  repeat split; by apply Forall_cons.
Qed.
End ChunkMore.

Lemma storage_header_fields_witness :
  let st := mkPalettedStorage unit 4 [305419896] tt in
  let e := mkEncoding unit 1 (fun _ _ => [2; 0; 2]) in
  0 <= bitsPerIndex st < 128
  /\ 0 <= network e < 2
  /\ exists h, encodePalettedStorage [7] st e BlockPaletteEncoding !! 1%nat = Some h
       /\ Z.shiftr h 1 = 4 /\ Z.land h 1 = 1.
Proof.
  intros st e.
  assert (H1 : 0 <= bitsPerIndex st < 128) by (simpl; lia).
  assert (H2 : 0 <= network e < 2) by (simpl; lia).
  split; [exact H1|]. split; [exact H2|].
  destruct (storage_header_fields unit st e [7] BlockPaletteEncoding H1 H2)
    as (h & Hh & _ & Hs & Hl).
  exists h. split; [exact Hh|]. split; [exact Hs | exact Hl].
Defined.

Lemma storage_bytes_inj_witness :
  let st1 := mkPalettedStorage nat 4 [305419896; 7] 0%nat in
  let st2 := mkPalettedStorage nat 4 [305419896; 7] 1%nat in
  let e := mkEncoding nat 1 (fun p _ => [Z.of_nat p]) in
  storage_bytes st1 e = storage_bytes st2 e
  /\ bitsPerIndex st1 = bitsPerIndex st2 /\ indices st1 = indices st2.
Proof.
  intros st1 st2 e.
  assert (H : storage_bytes st1 e = storage_bytes st2 e) by reflexivity.
  split; [exact H|].
  apply (storage_bytes_inj nat st1 st2 e); try (simpl; lia); try exact H;
    repeat constructor; unfold is_uint32; lia.
Defined.

Lemma Encode_vertical_index_distinct_witness :
  let st := mkPalettedStorage unit 1 [5] tt in
  let c := mkChunk unit [mkSubChunk unit [st]; mkSubChunk unit []] [] (-64, 319) [] in
  let e := mkEncoding unit 1 (fun _ _ => [2; 0; 2]) in
  (length (sub c) <= 256)%nat
  /\ SubChunks (Encode c e) !! 0%nat = Some [9; 1; 252; 3; 5; 0; 0; 0; 2; 0; 2]
  /\ SubChunks (Encode c e) !! 1%nat = Some [9; 0; 253]
  /\ Some 252 <> Some 253.
Proof.
  intros st c e.
  assert (H1 : (length (sub c) <= 256)%nat) by (simpl; lia).
  assert (H2 : SubChunks (Encode c e) !! 0%nat = Some [9; 1; 252; 3; 5; 0; 0; 0; 2; 0; 2])
    by reflexivity.
  assert (H3 : SubChunks (Encode c e) !! 1%nat = Some [9; 0; 253]) by reflexivity.
  split; [exact H1|]. split; [exact H2|]. split; [exact H3|].
  exact (Encode_vertical_index_distinct unit c e 0 1 _ _ H1 ltac:(lia) H2 H3).
Defined.

Lemma pooled_encoders_reset_witness :
  let st := mkPalettedStorage unit 1 [5] tt in
  let s := mkSubChunk unit [st] in
  let c := mkChunk unit [s] [st] (-64, 319) [] in
  let e := mkEncoding unit 1 (fun _ _ => [2; 0; 2]) in
  Forall (fun buf : list Z => buf = []) [[]; []]
  /\ (EncodeSubChunk_pooled 1 [[]; []] s e (-64, 319) 0).1 = EncodeSubChunk s e (-64, 319) 0
  /\ Forall (fun buf : list Z => buf = []) (EncodeSubChunk_pooled 1 [[]; []] s e (-64, 319) 0).2.
Proof.
  intros st s c e.
  assert (H : Forall (fun buf : list Z => buf = []) [[]; []]) by (repeat constructor).
  split; [exact H|].
  destruct (pooled_encoders_reset unit 1 [[]; []] s c e (-64, 319) 0 H) as (H1 & H2 & _).
  split; [exact H1 | exact H2].
Defined.
